(** * fastroute: a shallow embedding of router.go

    The development follows the source file top to bottom: the few
    functions of Go's [strings] package that [Route] uses, the path
    matcher [match], the [parameters] carrier with [wrap] and [reset],
    the [sync.Pool] of carriers, and the routers built by [Route] and
    [New].  Go strings are byte strings, so [string] (a list of [ascii])
    represents them exactly. *)

From Stdlib Require Import String Ascii List Arith Bool Lia.
From stdpp Require Import base option list.
Import ListNotations.

Local Open Scope string_scope.
Local Open Scope list_scope.

(** ** Go strings *)

Module GoStrings.

(** [s[n:]] *)
Fixpoint SliceFrom (s : string) (n : nat) {struct n} : string :=
  match n, s with
  | O, _ => s
  | S n', String _ s' => SliceFrom s' n'
  | S _, EmptyString => EmptyString
  end.

(** [s[:n]] *)
Fixpoint SliceTo (s : string) (n : nat) {struct n} : string :=
  match n, s with
  | O, _ => EmptyString
  | S n', String c s' => String c (SliceTo s' n')
  | S _, EmptyString => EmptyString
  end.

(** [s[a:b]] *)
Definition Slice (s : string) (a b : nat) : string :=
  SliceTo (SliceFrom s a) (b - a).

(** Whether the byte [c] occurs in [chars]. *)
Fixpoint ContainsByte (chars : string) (c : ascii) : bool :=
  match chars with
  | EmptyString => false
  | String d chars' => Ascii.eqb c d || ContainsByte chars' c
  end.

(** [strings.TrimLeft(s, cutset)] *)
Fixpoint TrimLeft (s cutset : string) : string :=
  match s with
  | EmptyString => EmptyString
  | String c s' => if ContainsByte cutset c then TrimLeft s' cutset else s
  end.

(** [strings.TrimRight(s, cutset)] *)
Fixpoint TrimRight (s cutset : string) : string :=
  match s with
  | EmptyString => EmptyString
  | String c s' =>
      match TrimRight s' cutset with
      | EmptyString => if ContainsByte cutset c then EmptyString else String c EmptyString
      | r => String c r
      end
  end.

(** [strings.Trim(s, cutset)] *)
Definition Trim (s cutset : string) : string :=
  TrimRight (TrimLeft s cutset) cutset.

(** [strings.IndexAny(s, chars)]; [None] stands for [-1]. *)
Fixpoint IndexAny (s chars : string) : option nat :=
  match s with
  | EmptyString => None
  | String c s' =>
      if ContainsByte chars c then Some 0
      else match IndexAny s' chars with
           | Some i => Some (S i)
           | None => None
           end
  end.

(** [strings.Split(s, sep)] for a one-byte separator, the only use in
    router.go.  The result always has one more element than [s] has
    separators; in particular [Split "" sep = [""]]. *)
Fixpoint Split (s : string) (sep : ascii) : list string :=
  match s with
  | EmptyString => [EmptyString]
  | String c s' =>
      if Ascii.eqb c sep then EmptyString :: Split s' sep
      else match Split s' sep with
           | x :: xs => String c x :: xs
           | [] => [String c EmptyString]
           end
  end.

(** [strings.Count(s, substr)] for a one-byte [substr]. *)
Fixpoint Count (s : string) (c : ascii) : nat :=
  match s with
  | EmptyString => 0
  | String d s' => (if Ascii.eqb d c then 1 else 0) + Count s' c
  end.

(** The last byte [s[len(s)-1]] of a non-empty string. *)
Fixpoint LastByte (s : string) : option ascii :=
  match s with
  | EmptyString => None
  | String c EmptyString => Some c
  | String _ s' => LastByte s'
  end.

End GoStrings.
Import GoStrings.

(** ** Params *)

Record Param := { Key : string; Value : string }.

Definition Params := list Param.

(** [Params.ByName] *)
Fixpoint ByName (ps : Params) (name : string) : string :=
  match ps with
  | [] => ""
  | p :: ps' => if String.eqb (Key p) name then Value p else ByName ps' name
  end.

(** ** Results of code that may panic *)

Inductive Result (A : Type) : Type :=
| Ok (a : A)
| Panic (msg : string).
Arguments Ok {A} a.
Arguments Panic {A} msg.

#[global] Instance Result_bind : MBind Result := λ A B k r,
  match r with
  | Ok a => k a
  | Panic m => Panic m
  end.

(** ** The segment matcher *)

(** [caseSensitiveCompare] *)
Definition caseSensitiveCompare (s1 s2 : string) : bool := String.eqb s1 s2.

(** Length of the longest prefix of [s] without a ['/']. *)
Fixpoint UntilSlash (s : string) : nat :=
  match s with
  | EmptyString => 0
  | String c s' => if Ascii.eqb c "/" then 0 else S (UntilSlash s')
  end.

(** The value of [end] when the scan
    [end := 1; for end < lu && url[end] != '/' { end++ }] stops. *)
Definition NamedEnd (url : string) : nat := S (UntilSlash (SliceFrom url 1)).

(** [match(segments, url, ps, ts)].  [ps] is the slice the pointer
    argument refers to and [cap] its capacity; the slice as the function
    leaves it is returned next to the boolean, on failure too.
    [compareFunc] is the package variable of that name, read at the
    call.  [seg[1]] panics on a one-byte segment and the reslice
    [( *ps)[:n+1]] panics beyond the capacity. *)
Fixpoint match_ (compareFunc : string → string → bool) (segments : list string)
    (url : string) (ps : Params) (cap : nat) (ts : bool) : Result (bool * Params) :=
  match segments with
  | [] => Ok ((negb ts && String.eqb url "") || (ts && String.eqb url "/"), ps)
  | seg :: segments' =>
      let lu := String.length url in
      if (lu =? 0)%nat then Ok (false, ps)
      else match String.get 1 seg with
      | None => Panic "index out of range"
      | Some c =>
          if Ascii.eqb c ":" then
            let n := length ps in
            if (cap <? n + 1)%nat then Panic "slice bounds out of range" else
            let end_ := NamedEnd url in
            match_ compareFunc segments' (SliceFrom url end_)
              (ps ++ [{| Key := SliceFrom seg 2; Value := Slice url 1 end_ |}]) cap ts
          else if Ascii.eqb c "*" then
            let n := length ps in
            if (cap <? n + 1)%nat then Panic "slice bounds out of range" else
            Ok (true, ps ++ [{| Key := SliceFrom seg 2; Value := url |}])
          else if (lu <? String.length seg)%nat then Ok (false, ps)
          else if compareFunc (SliceTo url (String.length seg)) seg then
            match_ compareFunc segments' (SliceFrom url (String.length seg)) ps cap ts
          else Ok (false, ps)
      end
  end.

(** ** Requests and carriers *)

(** Pointers to carriers and to pools. *)
Abbreviation loc := nat (only parsing).
Abbreviation pool_id := nat (only parsing).

(** The dynamic value of an [io.ReadCloser] such as [req.Body]: nil, a
    body supplied by the host (named by a number), or a pointer to a
    [parameters] carrier. *)
Inductive ReadCloserValue : Type :=
| NilBody
| HostBody (b : nat)
| CarrierPtr (l : loc).

(** The two fields of [*http.Request] that the package touches.  A
    request is threaded through the calls: each call that may assign
    [req.Body] returns the request as it leaves it. *)
Record Request := { URL_Path : string; Body : ReadCloserValue }.

(** [type parameters struct].  [params] is a slice: its elements and its
    capacity. *)
Record parameters := {
  ReadCloser : ReadCloserValue;
  params : Params;
  params_cap : nat;
  pattern : string;
  pool : option pool_id
}.

(** A [sync.Pool] of carriers: the carriers that were [Put] and not
    drawn again, and the two variables its [New] closure captures. *)
Record Pool := { free : list loc; New_num : nat; New_pattern : string }.

(** What lives on the Go heap: the carriers, the pools and the package
    variable [compareFunc]. *)
Record Store := {
  heap : list parameters;
  pools : list Pool;
  compareFunc : string → string → bool
}.

Definition set_heap (h : list parameters) (s : Store) : Store :=
  {| heap := h; pools := pools s; compareFunc := compareFunc s |}.

Definition set_pools (ps : list Pool) (s : Store) : Store :=
  {| heap := heap s; pools := ps; compareFunc := compareFunc s |}.

Definition set_compareFunc (f : string → string → bool) (s : Store) : Store :=
  {| heap := heap s; pools := pools s; compareFunc := f |}.

Definition set_ReadCloser (b : ReadCloserValue) (c : parameters) : parameters :=
  {| ReadCloser := b; params := params c; params_cap := params_cap c;
     pattern := pattern c; pool := pool c |}.

Definition set_params (ps : Params) (c : parameters) : parameters :=
  {| ReadCloser := ReadCloser c; params := ps; params_cap := params_cap c;
     pattern := pattern c; pool := pool c |}.

Definition set_free (f : list loc) (P : Pool) : Pool :=
  {| free := f; New_num := New_num P; New_pattern := New_pattern P |}.

Definition set_Body (b : ReadCloserValue) (r : Request) : Request :=
  {| URL_Path := URL_Path r; Body := b |}.

(** A store with nothing allocated. *)
Definition empty_store : Store :=
  {| heap := []; pools := []; compareFunc := caseSensitiveCompare |}.

(** Allocation of a carrier: [&parameters{...}]. *)
Definition alloc (c : parameters) (s : Store) : loc * Store :=
  (length (heap s), set_heap (heap s ++ [c]) s).

(** [parameterized(req)] *)
Definition parameterized (r : Request) : option loc :=
  match Body r with
  | CarrierPtr l => Some l
  | _ => None
  end.

(** [p.wrap(req)] for the carrier at [l]. *)
Definition wrap (l : loc) (s : Store) (r : Request) : Request * Store :=
  (set_Body (CarrierPtr l) r,
   set_heap (alter (set_ReadCloser (Body r)) l (heap s)) s).

(** [pool.Put(p)] *)
Definition Pool_Put (pid : pool_id) (l : loc) (s : Store) : Store :=
  set_pools (alter (λ P, set_free (l :: free P) P) pid (pools s)) s.

(** [p.reset(req)] for the carrier at [l].  A pointer is never dangling
    in Go; the model leaves everything as it is for a location that is
    not allocated. *)
Definition reset (l : loc) (s : Store) (r : Request) : Request * Store :=
  match heap s !! l with
  | None => (r, s)
  | Some c =>
      let s' :=
        match pool c with
        | Some pid => Pool_Put pid l (set_heap (<[l := set_params [] c]> (heap s)) s)
        | None => s
        end in
      (set_Body (ReadCloser c) r, s')
  end.

(** [emptyParams] *)
Definition emptyParams : Params := [].

(** [Parameters(req)] *)
Definition Parameters (s : Store) (r : Request) : Params :=
  match parameterized r with
  | Some l => match heap s !! l with Some c => params c | None => emptyParams end
  | None => emptyParams
  end.

(** [Pattern(req)] *)
Definition Pattern (s : Store) (r : Request) : string :=
  match parameterized r with
  | Some l => match heap s !! l with Some c => pattern c | None => "" end
  | None => ""
  end.

(** [Recycle(req)] *)
Definition Recycle (s : Store) (r : Request) : Request * Store :=
  match parameterized r with
  | Some l => reset l s r
  | None => (r, s)
  end.

(** ** Handlers *)

(** The values a caller can pass as the [handler interface{}] argument
    of [Route], by dynamic type. *)
Inductive HandlerValue : Type :=
| OfHandlerFunc (f : nat)      (* an [http.HandlerFunc] *)
| OfFunc (f : nat)             (* a [func(http.ResponseWriter, *http.Request)] *)
| OfOtherHandler (k : nat)     (* another type that implements [http.Handler] *)
| OfOtherValue (k : nat).      (* a value that is no handler at all *)

(** The handlers a router returns: the handler the user registered, or
    the closure [handle] of [Route] around it. *)
Inductive Handler : Type :=
| UserHandler (f : nat)
| handle (h : Handler).

(** The code of the handlers that users register is not part of the
    package.  [UserCode] is what it does: [user_handler f s r] is the
    request and the store as the handler numbered [f] leaves them when it
    is called on the request [r] in the store [s].  A handler may assign
    [req.Body], as [r.Body = http.MaxBytesReader(w, r.Body, n)] does, and
    it may call into the package, [Recycle(r)] for one. *)
Definition UserCode : Type := nat → Store → Request → Request * Store.

(** [h.ServeHTTP(w, r)]: the user's handler, and for [handle] the check
    that follows it: the carrier is reset only if [req.Body] still is
    one when the user's handler returns. *)
Fixpoint Handler_ServeHTTP (user_handler : UserCode) (h : Handler) (s : Store) (r : Request)
    : Request * Store :=
  match h with
  | UserHandler f => user_handler f s r
  | handle h' =>
      let '(r1, s1) := Handler_ServeHTTP user_handler h' s r in
      match parameterized r1 with
      | Some l => reset l s1 r1
      | None => (r1, s1)
      end
  end.

(** A handler that leaves the request and the store as they are. *)
Definition leaves_request : UserCode := λ _ s r, (r, s).

(** A handler that replaces the body by a reader of its own. *)
Definition assigns_Body : UserCode := λ _ s r, (set_Body (HostBody 42) r, s).

(** A handler that recycles the request itself. *)
Definition calls_Recycle : UserCode := λ _ s r, Recycle s r.

(** Handlers that do not call into the package, and handlers that also
    return with the [req.Body] they were called with. *)
Definition keeps_store (user_handler : UserCode) : Prop :=
  ∀ f s r, (user_handler f s r).2 = s.

Definition keeps_Body (user_handler : UserCode) : Prop :=
  ∀ f s r, (user_handler f s r).2 = s ∧ Body (user_handler f s r).1 = Body r.

(** ** Routers *)

Definition is_Some_b {A} (o : option A) : bool :=
  match o with Some _ => true | None => false end.

#[local] Set Warnings "-register-all".

(** The closures of type [RouterFunc] that the package builds, one
    constructor per closure, with the variables each one captures. *)
Inductive Router : Type :=
| StaticRoute (p : string) (ps : loc) (h : Handler)
| DynamicRoute (segments : list string) (ts : bool) (pool : pool_id) (handle : Handler)
| New (routes : list Router)
| ComparesPathWith (router : Router) (cmp : string → string → bool).

(** The loop of [Route] that prefixes every segment with a slash and
    validates it; [i] is the index of the first segment of [segs] and
    [n] is [len(segments)]. *)
Fixpoint prepare_segments (p : string) (segs : list string) (i n : nat)
    : Result (list string) :=
  match segs with
  | [] => Ok []
  | seg :: segs' =>
      let continue := rest ← prepare_segments p segs' (S i) n; Ok (String "/" seg :: rest) in
      match IndexAny seg ":*" with
      | None => continue
      | Some pos =>
          if negb (pos =? 0)%nat then
            Panic (String.append "special param matching signs, must follow after slash: " p)
          else if (String.length seg - 1 =? pos)%nat then
            Panic (String.append "param must be named after sign: " p)
          else if match String.get 0 seg with Some c => Ascii.eqb c "*" | None => false end
                  && negb (i + 1 =? n)%nat then
            Panic (String.append "match all, must be the last segment in pattern: " p)
          else if is_Some_b (IndexAny (SliceFrom seg 1) ":*") then
            Panic (String.append "only one param per segment: " p)
          else continue
      end
  end.

(** The type switch of [Route] on the handler. *)
Definition as_handler (handler : HandlerValue) : Result Handler :=
  match handler with
  | OfHandlerFunc f => Ok (UserHandler f)
  | OfFunc f => Ok (UserHandler f)
  | _ => Panic "not a handler given"
  end.

(** [p := "/" + strings.TrimLeft(path, "/")] *)
Definition normalize (path : string) : string := String "/" (TrimLeft path "/").

(** [Route(path, handler)] *)
Definition Route (path : string) (handler : HandlerValue) (s : Store)
    : Result (Router * Store) :=
  let p := normalize path in
  h ← as_handler handler;
  match IndexAny p ":*" with
  | None =>
      let '(ps, s') :=
        alloc {| ReadCloser := NilBody; params := emptyParams; params_cap := 0;
                 pattern := p; pool := None |} s in
      Ok (StaticRoute p ps h, s')
  | Some _ =>
      let segs := Split (Trim p "/") "/" in
      segments ← prepare_segments p segs 0 (length segs);
      let ts := match LastByte p with Some c => Ascii.eqb c "/" | None => false end in
      let num := Count p ":" + Count p "*" in
      let pid := length (pools s) in
      Ok (DynamicRoute segments ts pid (handle h),
          set_pools (pools s ++ [{| free := []; New_num := num; New_pattern := p |}]) s)
  end.

(** What the caller does with a handler that [Match] returned. *)
Inductive disposal : Type := Served | Recycled.

Section Matching.

(** [sync.Pool] may hand out any carrier that was put back, or a new one
    even when some are free.  [pool_choice] decides, from the free
    carriers, the index of the one to reuse, or [None] for a new one;
    nothing is assumed about it.  An empty pool always calls [New]. *)
Variable pool_choice : list loc → option nat.

(** What the registered handlers do. *)
Variable user_handler : UserCode.

(** [pool.New()] *)
Definition Pool_New (pid : pool_id) (P : Pool) (s : Store) : loc * Store :=
  alloc {| ReadCloser := NilBody; params := []; params_cap := New_num P;
           pattern := New_pattern P; pool := Some pid |} s.

(** [pool.Get()].  [None] only for a pool that does not exist, which a
    router never holds. *)
Definition Pool_Get (pid : pool_id) (s : Store) : option (loc * Store) :=
  P ← pools s !! pid;
  match free P with
  | [] => Some (Pool_New pid P s)
  | _ =>
      match pool_choice (free P) with
      | Some i =>
          match free P !! i with
          | Some l => Some (l, set_pools (<[pid := set_free (delete i (free P)) P]> (pools s)) s)
          | None => Some (Pool_New pid P s)
          end
      | None => Some (Pool_New pid P s)
      end
  end.

(** [router.Match(r)]: the handler or nil, the request and the store as
    the call leaves them.  The panics of the dynamic route on a missing
    pool or carrier stand for states that Go rules out: the closure
    holds its pool, and [Get] returns a pointer to a carrier. *)
Fixpoint Match (rt : Router) (s : Store) (r : Request)
    : Result (option Handler * Request * Store) :=
  match rt with
  | StaticRoute p ps h =>
      if compareFunc s p (URL_Path r) then
        let '(r', s') := wrap ps s r in Ok (Some h, r', s')
      else Ok (None, r, s)
  | DynamicRoute segments ts pid wrapped =>
      match Pool_Get pid s with
      | None => Panic "no such pool"
      | Some (l, s1) =>
          match heap s1 !! l with
          | None => Panic "no such carrier"
          | Some c =>
              '(matched, ps) ← match_ (compareFunc s1) segments (URL_Path r)
                                 (params c) (params_cap c) ts;
              let s2 := set_heap (<[l := set_params ps c]> (heap s1)) s1 in
              if matched : bool then
                let '(r', s') := wrap l s2 r in Ok (Some wrapped, r', s')
              else
                let '(r', s') := reset l s2 r in Ok (None, r', s')
          end
      end
  | New routes =>
      (fix loop (routes : list Router) (s : Store) (r : Request) :=
         match routes with
         | [] => Ok (None, r, s)
         | router :: routes' =>
             '(found, r', s') ← Match router s r;
             match found with
             | Some _ => Ok (found, r', s')
             | None => loop routes' s' r'
             end
         end) routes s r
  | ComparesPathWith router cmp =>
      '(handler, r', s') ← Match router (set_compareFunc cmp s) r;
      Ok (handler, r', set_compareFunc caseSensitiveCompare s')
  end.

(** [RouterFunc.ServeHTTP]; [http.NotFound] does not touch the request. *)
Definition Router_ServeHTTP (rt : Router) (s : Store) (r : Request)
    : Result (Request * Store) :=
  '(h, r', s') ← Match rt s r;
  match h with
  | Some h => Ok (Handler_ServeHTTP user_handler h s' r')
  | None => Ok (r', s')
  end.

(** Whether a router returns a handler for a request. *)
Definition matches (rt : Router) (s : Store) (r : Request) : Prop :=
  ∃ h r' s', Match rt s r = Ok (Some h, r', s').

(** [all_fail routes s r s' r']: tried one after the other from store
    [s] and request [r], every router of [routes] returns nil, and the
    last one leaves store [s'] and request [r']. *)
Inductive all_fail : list Router → Store → Request → Store → Request → Prop :=
| all_fail_nil s r : all_fail [] s r s r
| all_fail_cons router routes s r s1 r1 s2 r2 :
    Match router s r = Ok (None, r1, s1) →
    all_fail routes s1 r1 s2 r2 →
    all_fail (router :: routes) s r s2 r2.

(** One match attempt: [Match], and for a handler either
    [h.ServeHTTP(w, r)] or [Recycle(r)].  The store it leaves. *)
Definition attempt (rt : Router) (a : Request * disposal) (s : Store) : Result Store :=
  '(h, r', s') ← Match rt s a.1;
  match h with
  | None => Ok s'
  | Some h =>
      match a.2 with
      | Served => Ok (Handler_ServeHTTP user_handler h s' r').2
      | Recycled => Ok (Recycle s' r').2
      end
  end.

Fixpoint attempts (rt : Router) (reqs : list (Request * disposal)) (s : Store)
    : Result Store :=
  match reqs with
  | [] => Ok s
  | a :: reqs' => s' ← attempt rt a s; attempts rt reqs' s'
  end.

End Matching.

(** The choice that always reuses the carrier put back last. *)
Definition lifo (fr : list loc) : option nat := Some 0.

(** ** Well-formed stores *)

(** Every free carrier of a pool is allocated and points back to that
    pool; every pooled carrier was made by the [New] of its pool, so it
    carries that pool's pattern and capacity. *)
Definition pools_wf (s : Store) : Prop :=
  ∀ pid P l, pools s !! pid = Some P → l ∈ free P →
    ∃ c, heap s !! l = Some c ∧ pool c = Some pid.

Definition carriers_wf (s : Store) : Prop :=
  ∀ l c pid, heap s !! l = Some c → pool c = Some pid →
    ∃ P, pools s !! pid = Some P ∧ pattern c = New_pattern P ∧ params_cap c = New_num P.

Definition store_wf (s : Store) : Prop := pools_wf s ∧ carriers_wf s.

(** The fields of a carrier and of a pool that are never assigned after
    construction. *)
Definition same_carrier (c c' : parameters) : Prop :=
  pattern c = pattern c' ∧ pool c = pool c' ∧ params_cap c = params_cap c'.

Definition same_pool (P P' : Pool) : Prop :=
  New_num P = New_num P' ∧ New_pattern P = New_pattern P'.

(** [store_le s s']: [s'] is a later store than [s]. Carriers and pools
    are added but never removed, and keep their constant fields. *)
Definition store_le (s s' : Store) : Prop :=
  (∀ l c, heap s !! l = Some c → ∃ c', heap s' !! l = Some c' ∧ same_carrier c c') ∧
  (∀ pid P, pools s !! pid = Some P → ∃ P', pools s' !! pid = Some P' ∧ same_pool P P').

(** The number of free carriers of a pool. *)
Definition Pool_size (pid : pool_id) (s : Store) : nat :=
  match pools s !! pid with
  | Some P => length (free P)
  | None => 0
  end.

(** Free carriers are distinct and hold no parameters. *)
Definition pools_clean (s : Store) : Prop :=
  ∀ pid P, pools s !! pid = Some P →
    NoDup (free P) ∧ ∀ l, l ∈ free P → ∃ c, heap s !! l = Some c ∧ params c = [].

(** The carrier at [l] is in no pool. *)
Definition not_free (l : loc) (s : Store) : Prop :=
  ∀ pid P, pools s !! pid = Some P → l ∉ free P.

(** ** Valid patterns *)

(** The registration failures in the words of the specification, for
    one segment of the pattern without its slash.  [is_last] tells
    whether the segment is the final one. *)

(** The two marker bytes. *)
Definition is_marker (c : ascii) : bool := Ascii.eqb c ":" || Ascii.eqb c "*".

Fixpoint count_markers (s : string) : nat :=
  match s with
  | EmptyString => 0
  | String c s' => (if is_marker c then 1 else 0) + count_markers s'
  end.

(** A marker that is not immediately after the separator. *)
Definition marker_not_after_separator (seg : string) : bool :=
  match seg with
  | EmptyString => false
  | String _ tl => negb (count_markers tl =? 0)%nat
  end.

(** A marker with an empty name. *)
Definition marker_without_name (seg : string) : bool :=
  match seg with
  | String c EmptyString => is_marker c
  | _ => false
  end.

(** A catch-all segment that is not the final segment. *)
Definition catch_all_not_final (is_last : bool) (seg : string) : bool :=
  match seg with
  | String c _ => Ascii.eqb c "*" && negb is_last
  | EmptyString => false
  end.

(** More than one marker in the segment. *)
Definition several_markers (seg : string) : bool := (2 <=? count_markers seg)%nat.

Definition segment_invalid (is_last : bool) (seg : string) : bool :=
  marker_not_after_separator seg || marker_without_name seg ||
  catch_all_not_final is_last seg || several_markers seg.

(** Whether a prepared segment is a named or catch-all segment: its
    byte after the slash is a marker. *)
Definition is_param_segment (seg : string) : bool :=
  match String.get 1 seg with
  | Some c => is_marker c
  | None => false
  end.

Definition count_params (segments : list string) : nat :=
  length (filter (λ seg, is_param_segment seg = true) segments).

(** ** What Route allocates *)

(** The carrier a static route allocates. *)
Definition static_carrier (p : string) : parameters :=
  {| ReadCloser := NilBody; params := emptyParams; params_cap := 0;
     pattern := p; pool := None |}.

(** The pool a dynamic route creates. *)
Definition dynamic_pool (p : string) : Pool :=
  {| free := []; New_num := Count p ":" + Count p "*"; New_pattern := p |}.

Definition trailing_slash (p : string) : bool :=
  match LastByte p with Some c => Ascii.eqb c "/" | None => false end.

(** ** Example routes, requests and stores *)

Definition blog : string := "/blog/:category/:post".

Definition get (path : string) (body : ReadCloserValue) : Request :=
  {| URL_Path := path; Body := body |}.

Definition users_hello : string := "/users/hello".

Definition users_store : Store := (alloc (static_carrier users_hello) empty_store).2.

Definition files : string := "/files/*filepath".

Definition files_segments : list string := ["/files"; "/*filepath"].

Definition a_b_router : Router := DynamicRoute ["/a"; "/:b"] false 0 (handle (UserHandler 0)).

Definition a_b_store : Store := set_pools [dynamic_pool "/a/:b"] empty_store.

Definition a_b_requests : list (Request * disposal) :=
  [(get "/a/x" (HostBody 1), Served); (get "/x" NilBody, Served);
   (get "/a/y" NilBody, Recycled)].

Definition a_b_final : Store :=
  {| heap := [{| ReadCloser := NilBody; params := []; params_cap := 1;
                 pattern := "/a/:b"; pool := Some 0 |}];
     pools := [{| free := [0]; New_num := 1; New_pattern := "/a/:b" |}];
     compareFunc := caseSensitiveCompare |}.

Definition a_x_request : Request := get "/a/x" (HostBody 1).

Definition a_x_attached : Request := get "/a/x" (CarrierPtr 0).

Definition a_x_store : Store :=
  {| heap := [{| ReadCloser := HostBody 1; params := [{| Key := "b"; Value := "x" |}];
                 params_cap := 1; pattern := "/a/:b"; pool := Some 0 |}];
     pools := [dynamic_pool "/a/:b"];
     compareFunc := caseSensitiveCompare |}.

(** ** Keys and values of a pattern *)

(** The keys that [match] binds when it succeeds on [segments], in the
    order of the segments; a catch-all segment ends the walk. *)
Fixpoint param_keys (segments : list string) : list string :=
  match segments with
  | [] => []
  | seg :: segments' =>
      match String.get 1 seg with
      | Some c =>
          if Ascii.eqb c ":" then SliceFrom seg 2 :: param_keys segments'
          else if Ascii.eqb c "*" then [SliceFrom seg 2]
          else param_keys segments'
      | None => param_keys segments'
      end
  end.

(** Whether a string contains the byte ['/']. *)
Fixpoint has_slash (s : string) : bool :=
  match s with
  | EmptyString => false
  | String c s' => Ascii.eqb c "/" || has_slash s'
  end.

(** Whether a string is empty or starts with ['/']. *)
Definition at_separator (s : string) : bool :=
  match s with
  | EmptyString => true
  | String c _ => Ascii.eqb c "/"
  end.

(** The path that substitutes [vals] for the parameter segments of
    [segments]: a literal segment stands for itself, a named segment for
    a slash and its value, a catch-all segment for its value, and a
    pattern with a trailing slash ends in one. *)
Fixpoint render (segments : list string) (vals : list string) (ts : bool) : string :=
  match segments with
  | [] => if ts then "/" else ""
  | seg :: segments' =>
      match String.get 1 seg, vals with
      | Some c, v :: vals' =>
          if Ascii.eqb c ":" then String "/" (String.append v (render segments' vals' ts))
          else if Ascii.eqb c "*" then v
          else String.append seg (render segments' vals ts)
      | _, _ => String.append seg (render segments' vals ts)
      end
  end.

(** Whether [vals] can be substituted into [segments]: one value per
    parameter segment, a named value without a slash and followed by a
    separator or the end of the path, a catch-all value not empty. *)
Fixpoint substitutable (segments : list string) (vals : list string) (ts : bool) : bool :=
  match segments with
  | [] => match vals with [] => true | _ => false end
  | seg :: segments' =>
      match String.get 1 seg with
      | Some c =>
          if Ascii.eqb c ":" then
            match vals with
            | v :: vals' =>
                negb (has_slash v) && at_separator (render segments' vals' ts)
                && substitutable segments' vals' ts
            | [] => false
            end
          else if Ascii.eqb c "*" then
            match vals with
            | [v] => negb (String.eqb v "")
            | _ => false
            end
          else substitutable segments' vals ts
      | None => false
      end
  end.

(** The parameters with the given keys and values. *)
Definition bind_params (keys vals : list string) : Params :=
  zip_with (λ k v, {| Key := k; Value := v |}) keys vals.

(** A comparison that is not equality: the two strings have the same
    length. *)
Definition same_length (s1 s2 : string) : bool :=
  (String.length s1 =? String.length s2)%nat.

(** The keys of a registration string: the names of its parameter
    segments, in order. *)
Definition pattern_keys (path : string) : list string :=
  param_keys (map (String "/") (Split (Trim (normalize path) "/") "/")).

(** ** What is bound for each parameter segment *)

(** The parameter segments of [segments] in order, each with its key
    and whether it is a catch-all segment; a catch-all segment ends the
    walk. *)
Fixpoint param_segments (segments : list string) : list (string * bool) :=
  match segments with
  | [] => []
  | seg :: segments' =>
      match String.get 1 seg with
      | Some c =>
          if Ascii.eqb c ":" then (SliceFrom seg 2, false) :: param_segments segments'
          else if Ascii.eqb c "*" then [(SliceFrom seg 2, true)]
          else param_segments segments'
      | None => param_segments segments'
      end
  end.

(** The parameter [p] as a parameter segment with key [seg.1] binds it
    on the path [url].  For a named segment the value has no slash and
    stands in the path after at least one byte and before a slash or the
    end of the path.  For a catch-all segment the match has succeeded
    and the value is a non-empty suffix of the path. *)
Definition bound_by (url : string) (matched : bool) (seg : string * bool) (p : Param)
    : Prop :=
  Key p = seg.1 ∧
  if seg.2 then
    matched = true ∧ Value p ≠ "" ∧ ∃ pre, url = String.append pre (Value p)
  else
    has_slash (Value p) = false ∧
    ∃ pre post, pre ≠ "" ∧ at_separator post = true ∧
                url = String.append pre (String.append (Value p) post).

(** * Properties *)

Lemma store_le_refl s : store_le s s.
Proof. split; intros; eexists; (split; [eassumption | done]). Qed.

Lemma store_le_trans s1 s2 s3 : store_le s1 s2 → store_le s2 s3 → store_le s1 s3.
Proof.
  intros [Hh Hp] [Hh' Hp']. split.
  - intros l c Hl. destruct (Hh _ _ Hl) as (c' & Hl' & E1 & E2 & E3).
    destruct (Hh' _ _ Hl') as (c'' & Hl'' & F1 & F2 & F3).
    exists c''. repeat split; congruence.
  - intros pid P HP. destruct (Hp _ _ HP) as (P' & HP' & E1 & E2).
    destruct (Hp' _ _ HP') as (P'' & HP'' & F1 & F2).
    exists P''. repeat split; congruence.
Qed.

(** *** Allocation *)

Lemma alloc_lookup_new c s : heap (alloc c s).2 !! (alloc c s).1 = Some c.
Proof.
  simpl. rewrite lookup_app_r by lia. by rewrite Nat.sub_diag.
Qed.

Lemma alloc_lookup_old c s l c0 :
  heap s !! l = Some c0 → heap (alloc c s).2 !! l = Some c0.
Proof. intros H. simpl. by apply lookup_app_l_Some. Qed.

Lemma alloc_lookup_inv c s l c0 :
  heap (alloc c s).2 !! l = Some c0 →
  heap s !! l = Some c0 ∨ (l = length (heap s) ∧ c0 = c).
Proof.
  simpl. intros H. apply lookup_app_Some in H as [H | [Hge H]]; [by left |].
  right. destruct (l - length (heap s)) as [|k] eqn:E; simpl in H; [|done].
  split; [lia | congruence].
Qed.

Lemma alloc_le c s : store_le s (alloc c s).2.
Proof.
  split; [| intros; eexists; split; [eassumption | done]].
  intros l c0 Hl. exists c0. split; [by apply alloc_lookup_old | done].
Qed.

Lemma alloc_wf c s :
  store_wf s →
  (∀ pid, pool c = Some pid →
     ∃ P, pools s !! pid = Some P ∧ pattern c = New_pattern P ∧ params_cap c = New_num P) →
  store_wf (alloc c s).2.
Proof.
  intros [Hp Hc] Hnew. split.
  - intros pid P l HP Hl. destruct (Hp pid P l HP Hl) as (c0 & H0 & H1).
    exists c0. split; [by apply alloc_lookup_old | done].
  - intros l c0 pid Hl Hpool.
    apply alloc_lookup_inv in Hl as [Hl | [-> ->]]; [by eapply Hc | by apply Hnew].
Qed.

(** *** Assignments to the fields of a carrier *)

(** Replacing a carrier by one with the same constant fields. *)
Lemma update_le s l c c' :
  heap s !! l = Some c → same_carrier c c' →
  store_le s (set_heap (<[l := c']> (heap s)) s).
Proof.
  intros Hl Hsame. split; [| intros; eexists; split; [eassumption | done]].
  intros l0 c0 Hl0. simpl. destruct (decide (l0 = l)) as [-> | Hne].
  - exists c'. rewrite list_lookup_insert_eq by (by eapply lookup_lt_Some).
    split; [done | congruence].
  - exists c0. by rewrite list_lookup_insert_ne.
Qed.

Lemma update_wf s l c c' :
  heap s !! l = Some c → same_carrier c c' → store_wf s →
  store_wf (set_heap (<[l := c']> (heap s)) s).
Proof.
  intros Hl (E1 & E2 & E3) [Hp Hc]. split.
  - intros pid P l0 HP Hl0. simpl in *.
    destruct (Hp pid P l0 HP Hl0) as (c0 & H0 & H1).
    destruct (decide (l0 = l)) as [-> | Hne].
    + exists c'. rewrite list_lookup_insert_eq by (by eapply lookup_lt_Some).
      split; [done | congruence].
    + exists c0. by rewrite list_lookup_insert_ne.
  - intros l0 c0 pid Hl0 Hpool. simpl in *.
    destruct (decide (l0 = l)) as [-> | Hne].
    + rewrite list_lookup_insert_eq in Hl0 by (by eapply lookup_lt_Some).
      assert (c0 = c') as -> by congruence.
      assert (pool c = Some pid) as Hpc by congruence.
      destruct (Hc l c pid Hl Hpc) as (P & ? & ? & ?).
      exists P. repeat split; congruence.
    + rewrite list_lookup_insert_ne in Hl0 by done. by eapply Hc.
Qed.

Lemma alter_as_insert {A} (f : A → A) (l : nat) (xs : list A) x :
  xs !! l = Some x → alter f l xs = <[l := f x]> xs.
Proof.
  revert l. induction xs as [|y xs IH]; intros [|l] H; simpl in *; try done.
  - congruence.
  - f_equal. by apply IH.
Qed.

Lemma alter_unallocated {A} (f : A → A) (l : nat) (xs : list A) :
  xs !! l = None → alter f l xs = xs.
Proof.
  revert l. induction xs as [|y xs IH]; intros [|l] H; simpl in *; try done.
  f_equal. by apply IH.
Qed.

Lemma set_heap_id s : set_heap (heap s) s = s.
Proof. by destruct s. Qed.

Lemma set_pools_id s : set_pools (pools s) s = s.
Proof. by destruct s. Qed.

(** *** wrap *)

Lemma wrap_heap l s r c :
  heap s !! l = Some c →
  (wrap l s r).2 = set_heap (<[l := set_ReadCloser (Body r) c]> (heap s)) s.
Proof. intros H. unfold wrap. simpl. by rewrite (alter_as_insert _ _ _ _ H). Qed.

Lemma wrap_unallocated l s r : heap s !! l = None → (wrap l s r).2 = s.
Proof.
  intros H. unfold wrap. simpl. rewrite (alter_unallocated _ _ _ H). apply set_heap_id.
Qed.

Lemma wrap_le l s r : store_le s (wrap l s r).2.
Proof.
  destruct (heap s !! l) as [c|] eqn:E.
  - rewrite (wrap_heap _ _ _ _ E). by eapply update_le.
  - rewrite (wrap_unallocated _ _ _ E). apply store_le_refl.
Qed.

Lemma wrap_wf l s r : store_wf s → store_wf (wrap l s r).2.
Proof.
  intros Hwf. destruct (heap s !! l) as [c|] eqn:E.
  - rewrite (wrap_heap _ _ _ _ E). by eapply update_wf.
  - by rewrite (wrap_unallocated _ _ _ E).
Qed.

Lemma wrap_pools l s r : pools (wrap l s r).2 = pools s.
Proof. done. Qed.

(** *** Put *)

Lemma Pool_Put_pools pid l s P :
  pools s !! pid = Some P →
  pools (Pool_Put pid l s) = <[pid := set_free (l :: free P) P]> (pools s).
Proof. intros H. unfold Pool_Put. simpl. by rewrite (alter_as_insert _ _ _ _ H). Qed.

Lemma Pool_Put_le pid l s : store_le s (Pool_Put pid l s).
Proof.
  split; [intros; eexists; split; [eassumption | done] |].
  intros pid0 P0 H0. destruct (pools s !! pid) as [P|] eqn:E.
  - rewrite (Pool_Put_pools _ _ _ _ E). destruct (decide (pid0 = pid)) as [-> | Hne].
    + eexists. rewrite list_lookup_insert_eq by (by eapply lookup_lt_Some).
      split; [done |]. assert (P0 = P) as -> by congruence. done.
    + exists P0. by rewrite list_lookup_insert_ne.
  - unfold Pool_Put. rewrite (alter_unallocated _ _ _ E). simpl. by exists P0.
Qed.

Lemma Pool_Put_wf pid l s c :
  heap s !! l = Some c → pool c = Some pid → store_wf s → store_wf (Pool_Put pid l s).
Proof.
  intros Hl Hpool [Hp Hc]. destruct (Hc _ _ _ Hl Hpool) as (P & HP & _).
  split.
  - intros pid0 P0 l0. rewrite (Pool_Put_pools _ _ _ _ HP).
    destruct (decide (pid0 = pid)) as [-> | Hne].
    + rewrite list_lookup_insert_eq by (by eapply lookup_lt_Some).
      intros [= <-]. simpl. intros [-> | Hin]%elem_of_cons; [by exists c |].
      by eapply Hp.
    + rewrite list_lookup_insert_ne by done. apply Hp.
  - intros l0 c0 pid0 Hl0 Hpool0. rewrite (Pool_Put_pools _ _ _ _ HP).
    destruct (Hc _ _ _ Hl0 Hpool0) as (P0 & HP0 & ? & ?).
    destruct (decide (pid0 = pid)) as [-> | Hne].
    + eexists. rewrite list_lookup_insert_eq by (by eapply lookup_lt_Some).
      split; [done |]. assert (P0 = P) as -> by congruence. done.
    + exists P0. by rewrite list_lookup_insert_ne.
Qed.

Lemma Pool_Put_size pid l s P :
  pools s !! pid = Some P → Pool_size pid (Pool_Put pid l s) = S (Pool_size pid s).
Proof.
  intros H. unfold Pool_size. rewrite (Pool_Put_pools _ _ _ _ H), H.
  by rewrite list_lookup_insert_eq by (by eapply lookup_lt_Some).
Qed.

Lemma Pool_Put_size_le pid pid0 l s : Pool_size pid0 s ≤ Pool_size pid0 (Pool_Put pid l s).
Proof.
  destruct (pools s !! pid) as [P|] eqn:E.
  - destruct (decide (pid0 = pid)) as [-> | Hne].
    + rewrite (Pool_Put_size _ _ _ _ E). lia.
    + unfold Pool_size. rewrite (Pool_Put_pools _ _ _ _ E).
      by rewrite list_lookup_insert_ne.
  - unfold Pool_Put. rewrite (alter_unallocated _ _ _ E). by rewrite set_pools_id.
Qed.

(** *** reset *)

Lemma reset_unpooled l s r c :
  heap s !! l = Some c → pool c = None →
  reset l s r = (set_Body (ReadCloser c) r, s).
Proof. intros H1 H2. unfold reset. by rewrite H1, H2. Qed.

Lemma reset_pooled l s r c pid :
  heap s !! l = Some c → pool c = Some pid →
  reset l s r =
    (set_Body (ReadCloser c) r,
     Pool_Put pid l (set_heap (<[l := set_params [] c]> (heap s)) s)).
Proof. intros H1 H2. unfold reset. by rewrite H1, H2. Qed.

Lemma reset_Body l s r c :
  heap s !! l = Some c → Body (reset l s r).1 = ReadCloser c.
Proof. intros H. unfold reset. by rewrite H. Qed.

Lemma reset_URL_Path l s r : URL_Path (reset l s r).1 = URL_Path r.
Proof. unfold reset. by destruct (heap s !! l). Qed.

Lemma reset_le l s r : store_le s (reset l s r).2.
Proof.
  unfold reset. destruct (heap s !! l) as [c|] eqn:E; [| apply store_le_refl].
  destruct (pool c) as [pid|]; simpl; [| apply store_le_refl].
  eapply store_le_trans; [| apply Pool_Put_le]. by eapply update_le.
Qed.

Lemma reset_wf l s r : store_wf s → store_wf (reset l s r).2.
Proof.
  intros Hwf. unfold reset. destruct (heap s !! l) as [c|] eqn:E; [| done].
  destruct (pool c) as [pid|] eqn:Ep; simpl; [| done].
  eapply (Pool_Put_wf _ _ _ (set_params [] c)).
  - simpl. apply list_lookup_insert_eq. by eapply lookup_lt_Some.
  - done.
  - by eapply update_wf.
Qed.

Lemma reset_size_le l s r pid : Pool_size pid s ≤ Pool_size pid (reset l s r).2.
Proof.
  unfold reset. destruct (heap s !! l) as [c|]; [| done].
  destruct (pool c) as [pid'|]; simpl; [| done].
  etrans; [| apply Pool_Put_size_le]. done.
Qed.

(** Resetting a pooled carrier puts it into its own pool. *)
Lemma reset_puts_back l s r c pid :
  heap s !! l = Some c → pool c = Some pid → store_wf s →
  Pool_size pid (reset l s r).2 = S (Pool_size pid s) ∧
  ∃ P, pools (reset l s r).2 !! pid = Some P ∧ l ∈ free P.
Proof.
  intros Hl Hpool [_ Hc]. destruct (Hc _ _ _ Hl Hpool) as (P & HP & _).
  rewrite (reset_pooled _ _ _ _ _ Hl Hpool). cbn [snd]. split.
  - by rewrite (Pool_Put_size _ _ _ P).
  - rewrite (Pool_Put_pools _ _ _ P) by done. cbn [pools set_heap].
    eexists. rewrite list_lookup_insert_eq by (by eapply lookup_lt_Some).
    split; [done |]. simpl. apply elem_of_cons. by left.
Qed.

Lemma reset_compareFunc l s r : compareFunc (reset l s r).2 = compareFunc s.
Proof.
  unfold reset. destruct (heap s !! l) as [c|]; [| done]. by destruct (pool c).
Qed.

(** *** Recycle and ServeHTTP *)

Lemma Recycle_le s r : store_le s (Recycle s r).2.
Proof.
  unfold Recycle. destruct (parameterized r); [apply reset_le | apply store_le_refl].
Qed.

Lemma Recycle_wf s r : store_wf s → store_wf (Recycle s r).2.
Proof. unfold Recycle. destruct (parameterized r); [apply reset_wf | done]. Qed.

Lemma Recycle_size_le s r pid : Pool_size pid s ≤ Pool_size pid (Recycle s r).2.
Proof. unfold Recycle. destruct (parameterized r); [apply reset_size_le | done]. Qed.

(** Serving with handlers that do not call into the package. *)
Lemma ServeHTTP_le user_handler h s r :
  keeps_store user_handler → store_le s (Handler_ServeHTTP user_handler h s r).2.
Proof.
  intros Hk. revert s r. induction h as [f | h IH]; intros s r; simpl;
    [rewrite Hk; apply store_le_refl |].
  specialize (IH s r). destruct (Handler_ServeHTTP user_handler h s r) as [r1 s1].
  destruct (parameterized r1); [| done].
  eapply store_le_trans; [exact IH | apply reset_le].
Qed.

Lemma ServeHTTP_wf user_handler h s r :
  keeps_store user_handler → store_wf s →
  store_wf (Handler_ServeHTTP user_handler h s r).2.
Proof.
  intros Hk. revert s r. induction h as [f | h IH]; intros s r Hwf; simpl;
    [by rewrite Hk |].
  specialize (IH s r Hwf). destruct (Handler_ServeHTTP user_handler h s r) as [r1 s1].
  destruct (parameterized r1); [by apply reset_wf | done].
Qed.

Lemma ServeHTTP_size_le user_handler h s r pid :
  keeps_store user_handler →
  Pool_size pid s ≤ Pool_size pid (Handler_ServeHTTP user_handler h s r).2.
Proof.
  intros Hk. revert s r. induction h as [f | h IH]; intros s r; simpl;
    [by rewrite Hk |].
  specialize (IH s r). destruct (Handler_ServeHTTP user_handler h s r) as [r1 s1].
  destruct (parameterized r1); [| done].
  etrans; [exact IH | apply reset_size_le].
Qed.

Lemma keeps_Body_store user_handler : keeps_Body user_handler → keeps_store user_handler.
Proof. intros Hk f s r. apply Hk. Qed.

Lemma leaves_request_keeps_Body : keeps_Body leaves_request.
Proof. by intros f s r. Qed.

(** What [handle] does around a handler that returns with the
    [req.Body] it was called with: the carrier that is attached is
    reset. *)
Lemma handle_keeps_Body user_handler f s l r :
  keeps_Body user_handler →
  Handler_ServeHTTP user_handler (handle (UserHandler f)) s (set_Body (CarrierPtr l) r)
    = reset l s (user_handler f s (set_Body (CarrierPtr l) r)).1.
Proof.
  intros Hk. cbn [Handler_ServeHTTP].
  destruct (Hk f s (set_Body (CarrierPtr l) r)) as [Hs HB].
  destruct (user_handler f s (set_Body (CarrierPtr l) r)) as [r1 s1].
  simpl in Hs, HB. subst s1. unfold parameterized. by rewrite HB.
Qed.

(** The store that [reset] leaves does not depend on the request. *)
Lemma reset_store l s r r0 : (reset l s r).2 = (reset l s r0).2.
Proof. unfold reset. by destruct (heap s !! l). Qed.

Lemma handle_keeps_Body_store user_handler f s l r :
  keeps_Body user_handler →
  (Handler_ServeHTTP user_handler (handle (UserHandler f)) s (set_Body (CarrierPtr l) r)).2
    = (reset l s (set_Body (CarrierPtr l) r)).2.
Proof. intros Hk. rewrite handle_keeps_Body by done. apply reset_store. Qed.

Arguments wrap : simpl never.
Arguments reset : simpl never.
Arguments Pool_Put : simpl never.
Arguments alloc : simpl never.

(** ** Nested induction on routers *)

Section RouterInduction.

Variable P : Router → Prop.
Hypothesis P_static : ∀ p ps h, P (StaticRoute p ps h).
Hypothesis P_dynamic : ∀ segments ts pid wrapped, P (DynamicRoute segments ts pid wrapped).
Hypothesis P_New : ∀ routes, Forall P routes → P (New routes).
Hypothesis P_Compares : ∀ router cmp, P router → P (ComparesPathWith router cmp).

Fixpoint Router_nested_ind (rt : Router) : P rt :=
  match rt with
  | StaticRoute p ps h => P_static p ps h
  | DynamicRoute segments ts pid wrapped => P_dynamic segments ts pid wrapped
  | New routes =>
      P_New routes
        ((fix all (rs : list Router) : Forall P rs :=
            match rs with
            | [] => @List.Forall_nil _ P
            | r :: rs' => @List.Forall_cons _ P r rs' (Router_nested_ind r) (all rs')
            end) routes)
  | ComparesPathWith router cmp => P_Compares router cmp (Router_nested_ind router)
  end.

End RouterInduction.

(** ** Properties of Get and Match *)

Section MatchFacts.

Variable pool_choice : list loc → option nat.

#[local] Abbreviation Pool_Get := (Pool_Get pool_choice).
#[local] Abbreviation Match := (Match pool_choice).

Lemma Pool_Get_inv pid s l s1 :
  Pool_Get pid s = Some (l, s1) →
  ∃ P, pools s !! pid = Some P ∧
    ((l, s1) = Pool_New pid P s ∨
     ∃ i, free P !! i = Some l ∧
          s1 = set_pools (<[pid := set_free (delete i (free P)) P]> (pools s)) s).
Proof.
  unfold Pool_Get. destruct (pools s !! pid) as [P|] eqn:E; simpl; [| done].
  intros H. exists P. split; [done |].
  destruct (free P) as [|l0 fr] eqn:Ef; [left; congruence |].
  destruct (pool_choice (l0 :: fr)) as [i|]; [| left; congruence].
  destruct ((l0 :: fr) !! i) as [l'|] eqn:Ei; [| left; congruence].
  right. exists i. split; congruence.
Qed.

(** An empty pool calls [New]. *)
Lemma Pool_Get_empty pid s P :
  pools s !! pid = Some P → free P = [] → Pool_Get pid s = Some (Pool_New pid P s).
Proof. intros H1 H2. unfold Pool_Get. rewrite H1. simpl. by rewrite H2. Qed.

Lemma Pool_Get_facts pid s l s1 :
  store_wf s → Pool_Get pid s = Some (l, s1) →
  store_le s s1 ∧ store_wf s1 ∧
  (∃ c, heap s1 !! l = Some c ∧ pool c = Some pid) ∧
  Pool_size pid s ≤ S (Pool_size pid s1) ∧
  (∀ pid0, pid0 ≠ pid → Pool_size pid0 s = Pool_size pid0 s1) ∧
  compareFunc s1 = compareFunc s.
Proof.
  intros Hwf HG. destruct (Pool_Get_inv _ _ _ _ HG) as (P & HP & [Hnew | (i & Hi & ->)]).
  - unfold Pool_New in Hnew.
    set (c := {| ReadCloser := NilBody; params := []; params_cap := New_num P;
                 pattern := New_pattern P; pool := Some pid |}) in *.
    assert (l = (alloc c s).1 ∧ s1 = (alloc c s).2) as [-> ->]
      by (by destruct (alloc c s); simplify_eq).
    split; [apply alloc_le |]. split.
    { apply alloc_wf; [done |]. intros pid0 [= <-]. by exists P. }
    split; [exists c; split; [apply alloc_lookup_new | done] |].
    unfold Pool_size, alloc. simpl. split; [destruct (pools s !! pid); lia | done].
  - assert (pid < length (pools s)) as Hlt by (by eapply lookup_lt_Some).
    assert (l ∈ free P) as Hin by (by eapply list_elem_of_lookup_2).
    destruct Hwf as [Hp Hc]. split; [| split; [split |]].
    + split; [intros; eexists; split; [eassumption | done] |].
      intros pid0 P0 H0. simpl. destruct (decide (pid0 = pid)) as [-> | Hne].
      * eexists. rewrite list_lookup_insert_eq by done.
        split; [done |]. assert (P0 = P) as -> by congruence. done.
      * exists P0. by rewrite list_lookup_insert_ne.
    + intros pid0 P0 l0. simpl. destruct (decide (pid0 = pid)) as [-> | Hne].
      * rewrite list_lookup_insert_eq by done. intros [= <-]. simpl.
        intros Hl0%list_elem_of_delete_inv. by eapply Hp.
      * rewrite list_lookup_insert_ne by done. apply Hp.
    + intros l0 c0 pid0 Hl0 Hpool0. simpl in *.
      destruct (Hc _ _ _ Hl0 Hpool0) as (P0 & HP0 & ? & ?).
      destruct (decide (pid0 = pid)) as [-> | Hne].
      * eexists. rewrite list_lookup_insert_eq by done.
        split; [done |]. assert (P0 = P) as -> by congruence. done.
      * exists P0. by rewrite list_lookup_insert_ne.
    + split; [by apply (Hp pid P) |]. unfold Pool_size. simpl.
      rewrite HP, list_lookup_insert_eq by done. simpl.
      rewrite length_delete by eauto. split; [lia |]. split; [| done].
      intros pid0 Hne. by rewrite list_lookup_insert_ne.
Qed.

(** What a call of a dynamic route's matcher does, step by step. *)
Lemma Match_dynamic_inv segments ts pid wrapped s r res r' s' :
  Match (DynamicRoute segments ts pid wrapped) s r = Ok (res, r', s') →
  ∃ l s1 c matched ps,
    Pool_Get pid s = Some (l, s1) ∧ heap s1 !! l = Some c ∧
    match_ (compareFunc s1) segments (URL_Path r) (params c) (params_cap c) ts
      = Ok (matched, ps) ∧
    let s2 := set_heap (<[l := set_params ps c]> (heap s1)) s1 in
    (matched = true ∧ res = Some wrapped ∧ (r', s') = wrap l s2 r) ∨
    (matched = false ∧ res = None ∧ (r', s') = reset l s2 r).
Proof.
  simpl. destruct (Pool_Get pid s) as [[l s1]|] eqn:EG; [| done].
  destruct (heap s1 !! l) as [c|] eqn:Ec; [| done].
  destruct (match_ _ _ _ _ _ _) as [[matched ps]|] eqn:Em; [| done].
  intros H. exists l, s1, c, matched, ps. simpl in H.
  split; [done |]. split; [done |]. split; [done |].
  destruct matched.
  - left. simplify_eq. auto.
  - right. destruct (reset _ _ _) as [r0 s0]. simplify_eq. auto.
Qed.

Lemma Match_New_nil s r : Match (New []) s r = Ok (None, r, s).
Proof. reflexivity. Qed.

Lemma Match_New_cons router routes s r :
  Match (New (router :: routes)) s r =
    '(found, r', s') ← Match router s r;
    match found with
    | Some _ => Ok (found, r', s')
    | None => Match (New routes) s' r'
    end.
Proof. reflexivity. Qed.

Lemma set_compareFunc_wf f s : store_wf (set_compareFunc f s) ↔ store_wf s.
Proof. done. Qed.

Lemma set_compareFunc_le_l f s s' : store_le (set_compareFunc f s) s' ↔ store_le s s'.
Proof. done. Qed.

Lemma set_compareFunc_le_r f s s' : store_le s (set_compareFunc f s') ↔ store_le s s'.
Proof. done. Qed.

(** Every call of [Match] that returns leaves a later, well-formed store. *)
Lemma Match_preserves rt :
  ∀ s r res r' s', store_wf s → Match rt s r = Ok (res, r', s') →
    store_le s s' ∧ store_wf s'.
Proof.
  induction rt as [p ps h | segments ts pid wrapped | routes IH | router cmp IH]
    using Router_nested_ind; intros s r res r' s' Hwf HM.
  - simpl in HM. destruct (compareFunc s p (URL_Path r)).
    + simplify_eq. split; [apply (wrap_le ps s r) | by apply (wrap_wf ps s r)].
    + simplify_eq. split; [apply store_le_refl | done].
  - destruct (Match_dynamic_inv _ _ _ _ _ _ _ _ _ HM)
      as (l & s1 & c & matched & ps & HG & Hc & _ & Hres).
    destruct (Pool_Get_facts _ _ _ _ Hwf HG) as (Hle & Hwf1 & _).
    assert (same_carrier c (set_params ps c)) as Hsame by done.
    pose proof (update_le _ _ _ _ Hc Hsame) as Hle2.
    pose proof (update_wf _ _ _ _ Hc Hsame Hwf1) as Hwf2.
    cbn zeta in Hres. destruct Hres as [(_ & _ & E) | (_ & _ & E)].
    + assert (s' = (wrap l (set_heap (<[l := set_params ps c]> (heap s1)) s1) r).2)
        as -> by (by rewrite <- E).
      split; [| by apply wrap_wf].
      eapply store_le_trans; [exact Hle |]. eapply store_le_trans; [exact Hle2 |].
      apply wrap_le.
    + assert (s' = (reset l (set_heap (<[l := set_params ps c]> (heap s1)) s1) r).2)
        as -> by (by rewrite <- E).
      split; [| by apply reset_wf].
      eapply store_le_trans; [exact Hle |]. eapply store_le_trans; [exact Hle2 |].
      apply reset_le.
  - revert s r Hwf HM. induction IH as [| router routes Hrouter _ IHroutes]; intros s r Hwf HM.
    + rewrite Match_New_nil in HM. simplify_eq. split; [apply store_le_refl | done].
    + rewrite Match_New_cons in HM.
      destruct (Match router s r) as [[[found r1] s1]|] eqn:E1; [| done].
      destruct (Hrouter _ _ _ _ _ Hwf E1) as [Hle1 Hwf1]. simpl in HM.
      destruct found as [h|].
      * by simplify_eq.
      * destruct (IHroutes _ _ Hwf1 HM) as [Hle2 Hwf2].
        split; [by eapply store_le_trans | done].
  - simpl in HM.
    destruct (Match router (set_compareFunc cmp s) r) as [[[found r1] s1]|] eqn:E1; [| done].
    simpl in HM. simplify_eq.
    destruct (IH _ _ _ _ _ (proj2 (set_compareFunc_wf cmp s) Hwf) E1) as [Hle1 Hwf1].
    split; [| done]. by apply set_compareFunc_le_r, set_compareFunc_le_l in Hle1.
Qed.

End MatchFacts.

(** ** Registration *)

Lemma Route_inv path handler s rt s1 :
  Route path handler s = Ok (rt, s1) →
  ∃ h, as_handler handler = Ok h ∧
    let p := normalize path in
    (IndexAny p ":*" = None ∧
     rt = StaticRoute p (length (heap s)) h ∧
     s1 = (alloc (static_carrier p) s).2) ∨
    (is_Some (IndexAny p ":*") ∧
     ∃ segments,
       prepare_segments p (Split (Trim p "/") "/") 0 (length (Split (Trim p "/") "/"))
         = Ok segments ∧
       rt = DynamicRoute segments (trailing_slash p) (length (pools s)) (handle h) ∧
       s1 = set_pools (pools s ++ [dynamic_pool p]) s).
Proof.
  unfold Route. destruct (as_handler handler) as [h|] eqn:Eh;
    unfold mbind, Result_bind; [| intros H; discriminate H].
  intros H. exists h. split; [done |]. cbn zeta.
  destruct (IndexAny (normalize path) ":*") as [i|] eqn:Ei.
  - right. split; [by eexists |].
    destruct (prepare_segments _ _ _ _) as [segments|] eqn:Es; [| discriminate H].
    exists segments. by simplify_eq.
  - left. unfold alloc in *. by simplify_eq.
Qed.

Lemma add_pool_le s P : store_le s (set_pools (pools s ++ [P]) s).
Proof.
  split; [intros; eexists; split; [eassumption | done] |].
  intros pid P0 H0. exists P0. split; [by apply lookup_app_l_Some | done].
Qed.

Lemma add_pool_wf s P : free P = [] → store_wf s → store_wf (set_pools (pools s ++ [P]) s).
Proof.
  intros Hfree [Hp Hc]. split.
  - intros pid P0 l H0 Hl. simpl in *.
    apply lookup_app_Some in H0 as [H0 | [Hge H0]]; [by eapply Hp |].
    destruct (pid - length (pools s)) as [|k]; simpl in H0; [| done].
    simplify_eq. rewrite Hfree in Hl. by apply elem_of_nil in Hl.
  - intros l c pid Hl Hpool. simpl in *.
    destruct (Hc _ _ _ Hl Hpool) as (P0 & HP0 & ? & ?).
    exists P0. split; [by apply lookup_app_l_Some | done].
Qed.

Lemma Route_preserves path handler s rt s1 :
  store_wf s → Route path handler s = Ok (rt, s1) → store_le s s1 ∧ store_wf s1.
Proof.
  intros Hwf (h & _ & [(_ & _ & ->) | (_ & segments & _ & _ & ->)])%Route_inv.
  - split; [apply alloc_le | by apply alloc_wf].
  - split; [apply add_pool_le | by apply add_pool_wf].
Qed.

Lemma empty_store_wf : store_wf empty_store.
Proof. split; intros ? ? ? H; by destruct (lookup_nil _ _ _ H) || done. Qed.

(** ** Named segments *)

Section NamedSegments.

Variable pool_choice : list loc → option nat.

#[local] Abbreviation Match := (Match pool_choice).

(** C1.  The route [/blog/:category/:post] matches
    [/blog/go/request-routers] with category [go] and post
    [request-routers], and matches neither that path followed by a slash
    nor a path with one more segment.  It does match [/blog/go/], with
    an empty [post]: when the remaining path is the single byte [/], the
    named segment consumes that byte and binds the empty string at the
    end of the path.  The package documentation lists [/blog/go/] as
    "no match". *)
Theorem blog_go_slash_is_matched :
  match_ caseSensitiveCompare ["/blog"; "/:category"; "/:post"] "/blog/go/" [] 2 false
    = Ok (true, [{| Key := "category"; Value := "go" |}; {| Key := "post"; Value := "" |}]) ∧
  ∃ rt s,
    Route blog (OfHandlerFunc 0) empty_store = Ok (rt, s) ∧
    rt = DynamicRoute ["/blog"; "/:category"; "/:post"] false 0 (handle (UserHandler 0)) ∧
    (∃ r' s',
       Match rt s (get "/blog/go/request-routers" NilBody)
         = Ok (Some (handle (UserHandler 0)), r', s') ∧
       Parameters s' r' = [{| Key := "category"; Value := "go" |};
                           {| Key := "post"; Value := "request-routers" |}]) ∧
    (∃ r' s', Match rt s (get "/blog/go/request-routers/" NilBody) = Ok (None, r', s')) ∧
    (∃ r' s', Match rt s (get "/blog/go/request-routers/comments" NilBody) = Ok (None, r', s')) ∧
    (∃ r' s',
       Match rt s (get "/blog/go/" NilBody) = Ok (Some (handle (UserHandler 0)), r', s') ∧
       Parameters s' r' = [{| Key := "category"; Value := "go" |};
                           {| Key := "post"; Value := "" |}] ∧
       ByName (Parameters s' r') "post" = "").
Proof.
  split; [reflexivity |].
  eexists _, _. split; [reflexivity |]. split; [reflexivity |].
  repeat split; eexists _, _; repeat split; vm_compute; reflexivity.
Qed.

End NamedSegments.

(** ** The request body across a failed match *)

Section FailedMatch.

Variable pool_choice : list loc → option nat.

(** After a failed match of a dynamic route, [req.Body] is the
    [ReadCloser] field of the carrier that was drawn, whatever the body
    was before. *)
Lemma failed_Match_Body segments ts pid wrapped s r r' s' :
  Match pool_choice (DynamicRoute segments ts pid wrapped) s r = Ok (None, r', s') →
  ∃ l s1 c, Pool_Get pool_choice pid s = Some (l, s1) ∧ heap s1 !! l = Some c ∧
            Body r' = ReadCloser c.
Proof.
  intros HM. destruct (Match_dynamic_inv _ _ _ _ _ _ _ _ _ _ HM)
    as (l & s1 & c & matched & ps & HG & Hc & _ & Hres).
  exists l, s1, c. split; [done |]. split; [done |].
  cbn zeta in Hres. destruct Hres as [(_ & [=] & _) | (_ & _ & E)].
  assert (r' = (reset l (set_heap (<[l := set_params ps c]> (heap s1)) s1) r).1)
    as -> by (by rewrite <- E).
  erewrite reset_Body; [| simpl; apply list_lookup_insert_eq; by eapply lookup_lt_Some].
  done.
Qed.

(** C2.  A request with a body of the host that a dynamic route does
    not match leaves [Match] with a nil body: [reset] runs on a carrier
    that never wrapped the request and assigns the carrier's
    [ReadCloser], nil for a new carrier, to [req.Body].  With a reused
    carrier the request leaves with the body of the request that the
    carrier served before. *)
Theorem failed_dynamic_Match_loses_Body :
  ∃ rt s,
    Route "/a/:b" (OfHandlerFunc 0) empty_store = Ok (rt, s) ∧
    (∃ r' s', Match pool_choice rt s (get "/x" (HostBody 1)) = Ok (None, r', s') ∧
              Body r' = NilBody ∧ Body r' ≠ Body (get "/x" (HostBody 1))) ∧
    (∃ h r1 s1 r2 s2 r3 s3,
       Match lifo rt s (get "/a/x" (HostBody 1)) = Ok (Some h, r1, s1) ∧
       Handler_ServeHTTP leaves_request h s1 r1 = (r2, s2) ∧ Body r2 = HostBody 1 ∧
       Match lifo rt s2 (get "/x" (HostBody 2)) = Ok (None, r3, s3) ∧
       Body r3 = HostBody 1).
Proof.
  eexists _, _. split; [reflexivity |]. split.
  - eexists _, _. split; [vm_compute; reflexivity |]. split; [reflexivity | discriminate].
  - eexists _, _, _, _, _, _, _. split; [vm_compute; reflexivity |].
    split; [vm_compute; reflexivity |]. split; [reflexivity |].
    split; [vm_compute; reflexivity | reflexivity].
Qed.

End FailedMatch.

(** ** Static routes *)

Section StaticRoutes.

Variable pool_choice : list loc → option nat.

Lemma Match_static p ps h s r :
  Match pool_choice (StaticRoute p ps h) s r =
    if compareFunc s p (URL_Path r)
    then Ok (Some h, set_Body (CarrierPtr ps) r, (wrap ps s r).2)
    else Ok (None, r, s).
Proof. reflexivity. Qed.

(** What a successful match of a static route leaves behind. *)
Lemma Match_static_Some p ps h s r h' r' s' c :
  heap s !! ps = Some c →
  Match pool_choice (StaticRoute p ps h) s r = Ok (Some h', r', s') →
  heap s' !! ps = Some (set_ReadCloser (Body r) c) ∧
  (∀ l, l ≠ ps → heap s' !! l = heap s !! l) ∧
  pools s' = pools s ∧
  r' = set_Body (CarrierPtr ps) r ∧ h' = h.
Proof.
  intros Hc HM.
  rewrite Match_static in HM. destruct (compareFunc s p (URL_Path r)); [| discriminate HM].
  assert (h' = h ∧ r' = set_Body (CarrierPtr ps) r ∧ s' = (wrap ps s r).2)
    as (-> & -> & ->) by (repeat split; congruence).
  rewrite (wrap_heap _ _ _ _ Hc). simpl.
  split; [apply list_lookup_insert_eq; by eapply lookup_lt_Some |].
  split; [| done]. intros l Hne. by apply list_lookup_insert_ne.
Qed.

(** A successful match of a static route assigns exactly one field of
    the shared carrier, [ReadCloser], and gives it the body the request
    arrived with; [params], its capacity, [pattern] and [pool] stay as
    they were, no other carrier and no pool changes. *)
Theorem static_Match_writes_ReadCloser p ps h s r h' r' s' c
    (Hc : heap s !! ps = Some c)
    (HM : Match pool_choice (StaticRoute p ps h) s r = Ok (Some h', r', s')) :
  heap s' !! ps = Some (set_ReadCloser (Body r) c) ∧
  params <$> heap s' !! ps = Some (params c) ∧
  params_cap <$> heap s' !! ps = Some (params_cap c) ∧
  pattern <$> heap s' !! ps = Some (pattern c) ∧
  pool <$> heap s' !! ps = Some (pool c) ∧
  (∀ l, l ≠ ps → heap s' !! l = heap s !! l) ∧
  pools s' = pools s.
Proof.
  destruct (Match_static_Some _ _ _ _ _ _ _ _ _ Hc HM) as (Hc' & Hother & Hpools & _).
  rewrite Hc'. repeat split; done.
Qed.

(** C4, as the code has it.  A static route returns its handler exactly
    for the requests whose path, as received, is the normalized pattern;
    the default comparison is in force.  The request path is not
    normalized. *)
Theorem static_Route_matches_iff path handler s rt s1 s2 r
    (Hstatic : IndexAny (normalize path) ":*" = None)
    (HR : Route path handler s = Ok (rt, s1))
    (Hcmp : compareFunc s2 = caseSensitiveCompare) :
  (matches pool_choice rt s2 r ↔ URL_Path r = normalize path) ∧
  (URL_Path r ≠ normalize path → Match pool_choice rt s2 r = Ok (None, r, s2)).
Proof.
  apply Route_inv in HR as (h & _ & [(_ & -> & _) | ([i Hi] & _)]); [| congruence].
  unfold matches. rewrite Match_static, Hcmp. unfold caseSensitiveCompare.
  destruct (String.eqb_spec (normalize path) (URL_Path r)) as [E | E].
  - split; [| congruence]. split; [done |]. intros _. by eexists _, _, _.
  - split; [| done]. split; [| congruence]. intros (? & ? & ? & [=]).
Qed.

End StaticRoutes.

(** The shared carrier of a static route ends up in a different state
    after matching two requests that differ in their body only. *)
Lemma static_carrier_depends_on_request :
  ∃ rt s,
    Route users_hello (OfHandlerFunc 0) empty_store = Ok (rt, s) ∧
    rt = StaticRoute users_hello 0 (UserHandler 0) ∧
    ∃ r1 s1 r2 s2,
      Match lifo rt s (get users_hello (HostBody 1)) = Ok (Some (UserHandler 0), r1, s1) ∧
      Match lifo rt s (get users_hello (HostBody 2)) = Ok (Some (UserHandler 0), r2, s2) ∧
      ReadCloser <$> heap s1 !! 0 = Some (HostBody 1) ∧
      ReadCloser <$> heap s2 !! 0 = Some (HostBody 2) ∧
      heap s1 !! 0 ≠ heap s2 !! 0.
Proof.
  eexists _, _. split; [reflexivity |]. split; [reflexivity |].
  eexists _, _, _, _. split; [reflexivity |]. split; [reflexivity |].
  split; [reflexivity |]. split; [reflexivity | discriminate].
Qed.

(** C3.  The one carrier of a static route holds per-request state:
    [wrap] stores [req.Body] into it.  The route [/users/hello] matches
    a request with body 1 and, before that request is released, a
    request with body 2.  Both requests leave with the same carrier
    attached and the carrier holds body 2, so the first request reads
    the body of the second, and [Recycle] hands body 2 to the first
    request.  On the dynamic route [/a/:b] the two requests draw a
    carrier each and the first gets its own body back. *)
Theorem static_carrier_mixes_bodies :
  (∃ rt s r1 s1 r2 s2 r1' s3,
     Route users_hello (OfHandlerFunc 0) empty_store = Ok (rt, s) ∧
     Match lifo rt s (get users_hello (HostBody 1)) = Ok (Some (UserHandler 0), r1, s1) ∧
     Match lifo rt s1 (get users_hello (HostBody 2)) = Ok (Some (UserHandler 0), r2, s2) ∧
     Body r1 = CarrierPtr 0 ∧ Body r2 = CarrierPtr 0 ∧
     ReadCloser <$> heap s1 !! 0 = Some (HostBody 1) ∧
     ReadCloser <$> heap s2 !! 0 = Some (HostBody 2) ∧
     Recycle s2 r1 = (r1', s3) ∧ Body r1' = HostBody 2) ∧
  (∃ rt s r1 s1 r2 s2 r1' s3,
     Route "/a/:b" (OfHandlerFunc 0) empty_store = Ok (rt, s) ∧
     Match lifo rt s (get "/a/x" (HostBody 1)) = Ok (Some (handle (UserHandler 0)), r1, s1) ∧
     Match lifo rt s1 (get "/a/y" (HostBody 2)) = Ok (Some (handle (UserHandler 0)), r2, s2) ∧
     Body r1 = CarrierPtr 0 ∧ Body r2 = CarrierPtr 1 ∧
     ReadCloser <$> heap s2 !! 0 = Some (HostBody 1) ∧
     ReadCloser <$> heap s2 !! 1 = Some (HostBody 2) ∧
     Recycle s2 r1 = (r1', s3) ∧ Body r1' = HostBody 1).
Proof.
  split; eexists _, _, _, _, _, _, _, _; (split; [reflexivity |]);
    (split; [vm_compute; reflexivity |]); (split; [vm_compute; reflexivity |]);
    (split; [reflexivity |]); (split; [reflexivity |]);
    (split; [reflexivity |]); (split; [reflexivity |]);
    (split; [vm_compute; reflexivity | reflexivity]).
Qed.

(** An instance: the route [/users/hello] and a request with a body. *)
Lemma static_Match_writes_ReadCloser_witness :
  let r := get users_hello (HostBody 1) in
  heap (wrap 0 users_store r).2 !! 0
    = Some (set_ReadCloser (HostBody 1) (static_carrier users_hello)).
Proof.
  intros r.
  refine (proj1 (static_Match_writes_ReadCloser lifo users_hello 0 (UserHandler 0)
                   users_store r (UserHandler 0) (set_Body (CarrierPtr 0) r)
                   (wrap 0 users_store r).2 (static_carrier users_hello) _ _));
    reflexivity.
Defined.

(** C4 as stated fails: a request path with two leading slashes
    normalizes to the pattern, and so does one with none, but the
    route compares the path as received and returns nil for both. *)
Lemma static_Match_does_not_normalize_request :
  normalize "//users/hello" = normalize users_hello ∧
  normalize "users/hello" = normalize users_hello ∧
  ∃ rt s,
    Route users_hello (OfHandlerFunc 0) empty_store = Ok (rt, s) ∧
    Match lifo rt s (get "//users/hello" NilBody) = Ok (None, get "//users/hello" NilBody, s) ∧
    Match lifo rt s (get "users/hello" NilBody) = Ok (None, get "users/hello" NilBody, s) ∧
    (∃ r' s', Match lifo rt s (get "/users/hello" NilBody) = Ok (Some (UserHandler 0), r', s')) ∧
    Match lifo rt s (get "/user/hello" NilBody) = Ok (None, get "/user/hello" NilBody, s) ∧
    Match lifo rt s (get "/users/hello/" NilBody) = Ok (None, get "/users/hello/" NilBody, s).
Proof.
  split; [reflexivity |]. split; [reflexivity |].
  eexists _, _. split; [reflexivity |].
  repeat split; try reflexivity. by eexists _, _.
Qed.

(** An instance: the route [/users/hello] and the request path
    [/users/hello]. *)
Lemma static_Route_matches_iff_witness :
  matches lifo (StaticRoute users_hello 0 (UserHandler 0)) users_store
    (get users_hello NilBody)
  ↔ users_hello = normalize users_hello.
Proof.
  refine (proj1 (static_Route_matches_iff lifo users_hello (OfHandlerFunc 0) empty_store
            _ _ _ (get users_hello NilBody) _ _ _)); reflexivity.
Defined.

(** ** Catch-all segments *)

(** The matcher on the segments of [/files/*filepath], for any slice
    with room for one more parameter. *)
Lemma match_files_rest rest ps cap :
  rest ≠ "" → length ps < cap →
  match_ caseSensitiveCompare files_segments (String.append "/files" rest) ps cap false
    = Ok (true, ps ++ [{| Key := "filepath"; Value := rest |}]).
Proof.
  intros Hrest Hcap. destruct rest as [|c rest]; [done |].
  cbn. rewrite Nat.add_1_r.
  replace (cap <=? length ps)%nat with false; [done |].
  symmetry. apply Nat.leb_gt. lia.
Qed.

Lemma match_files_only ps cap :
  match_ caseSensitiveCompare files_segments "/files" ps cap false = Ok (false, ps).
Proof. reflexivity. Qed.

Section CatchAll.

Variable pool_choice : list loc → option nat.

(** C5.  The route [/files/*filepath] does not match [/files]; it
    matches every path [/files] followed by a non-empty rest, whatever
    the rest contains, and binds [filepath] to that rest as it is.  The
    matcher itself does so for any slice with room for one parameter. *)
Theorem catch_all_binds_remaining_path rest body ps cap
    (Hrest : rest ≠ "") (Hcap : length ps < cap) :
  match_ caseSensitiveCompare files_segments "/files" ps cap false = Ok (false, ps) ∧
  match_ caseSensitiveCompare files_segments (String.append "/files" rest) ps cap false
    = Ok (true, ps ++ [{| Key := "filepath"; Value := rest |}]) ∧
  ∃ rt s,
    Route files (OfHandlerFunc 0) empty_store = Ok (rt, s) ∧
    rt = DynamicRoute files_segments false 0 (handle (UserHandler 0)) ∧
    (∃ r' s', Match pool_choice rt s (get "/files" body) = Ok (None, r', s')) ∧
    (∃ r' s',
       Match pool_choice rt s (get (String.append "/files" rest) body)
         = Ok (Some (handle (UserHandler 0)), r', s') ∧
       Parameters s' r' = [{| Key := "filepath"; Value := rest |}] ∧
       ByName (Parameters s' r') "filepath" = rest).
Proof.
  split; [apply match_files_only |]. split; [by apply match_files_rest |].
  eexists _, _. split; [reflexivity |]. split; [reflexivity |]. split.
  - eexists _, _. vm_compute. reflexivity.
  - destruct rest as [|c rest]; [done |].
    eexists _, _. split; [vm_compute; reflexivity |]. split; [reflexivity |].
    vm_compute. reflexivity.
Qed.

End CatchAll.

(** An instance: the path [/files/a/b]. *)
Lemma catch_all_binds_remaining_path_witness :
  ∃ rt s r' s',
    Route files (OfHandlerFunc 0) empty_store = Ok (rt, s) ∧
    Match lifo rt s (get "/files/a/b" NilBody) = Ok (Some (handle (UserHandler 0)), r', s') ∧
    Parameters s' r' = [{| Key := "filepath"; Value := "/a/b" |}].
Proof.
  destruct (catch_all_binds_remaining_path lifo "/a/b" NilBody [] 1
              ltac:(discriminate) ltac:(simpl; lia))
    as (_ & _ & rt & s & HR & _ & _ & r' & s' & HM & HP & _).
  by exists rt, s, r', s'.
Defined.

Example files_slash :
  ∃ rt s r' s',
    Route files (OfHandlerFunc 0) empty_store = Ok (rt, s) ∧
    Match lifo rt s (get "/files/" NilBody) = Ok (Some (handle (UserHandler 0)), r', s') ∧
    Parameters s' r' = [{| Key := "filepath"; Value := "/" |}].
Proof. eexists _, _, _, _. repeat split; reflexivity. Qed.

(** ** The composite dispatcher *)

Section Composite.

Variable pool_choice : list loc → option nat.

#[local] Abbreviation Match := (Match pool_choice).
#[local] Abbreviation all_fail := (all_fail pool_choice).

Lemma New_Match_first pre router post s r s1 r1 h r2 s2 :
  all_fail pre s r s1 r1 →
  Match router s1 r1 = Ok (Some h, r2, s2) →
  Match (New (pre ++ router :: post)) s r = Ok (Some h, r2, s2).
Proof.
  intros Hpre Hm. induction Hpre as [s r | rt pre s r s1 r1 s3 r3 Hfail _ IH].
  - simpl app. rewrite Match_New_cons, Hm. reflexivity.
  - simpl app. rewrite Match_New_cons, Hfail. simpl. by apply IH.
Qed.

Lemma New_Match_inv routes :
  ∀ s r h r2 s2,
    Match (New routes) s r = Ok (Some h, r2, s2) →
    ∃ pre router post s1 r1,
      routes = pre ++ router :: post ∧ all_fail pre s r s1 r1 ∧
      Match router s1 r1 = Ok (Some h, r2, s2).
Proof.
  induction routes as [| rt routes IH]; intros s r h r2 s2 HM.
  - rewrite Match_New_nil in HM. discriminate HM.
  - rewrite Match_New_cons in HM.
    destruct (Match rt s r) as [[[found r1] s1]|] eqn:E; [| discriminate HM].
    simpl in HM. destruct found as [h1|].
    + exists [], rt, routes, s, r. split; [done |]. split; [constructor |]. congruence.
    + destruct (IH _ _ _ _ _ HM) as (pre & router & post & s3 & r3 & -> & Hpre & Hm).
      exists (rt :: pre), router, post, s3, r3. split; [done |].
      split; [by econstructor | done].
Qed.

(** C10.  [New(routes...)] returns a handler exactly when some router
    of the list returns it after all the routers registered before it
    have returned nil, each tried on the store and request the previous
    one left; the routers registered after it are not consulted, and the
    call ends in the state the matching router left. *)
Theorem New_returns_first_match routes s r h r2 s2 :
  Match (New routes) s r = Ok (Some h, r2, s2) ↔
  ∃ pre router post s1 r1,
    routes = pre ++ router :: post ∧ all_fail pre s r s1 r1 ∧
    Match router s1 r1 = Ok (Some h, r2, s2).
Proof.
  split; [apply New_Match_inv |].
  intros (pre & router & post & s1 & r1 & -> & Hpre & Hm). by eapply New_Match_first.
Qed.

(** X17.  [New(routes...)] returns nil exactly when every router
    returns nil, each tried on the request and the store that the one
    before it left; the call then ends in the state the last router
    left. *)
Lemma New_Match_nil_iff routes s r r' s' :
  Match (New routes) s r = Ok (None, r', s') ↔ all_fail routes s r s' r'.
Proof.
  split.
  - revert s r. induction routes as [| rt routes IH]; intros s r HM.
    + rewrite Match_New_nil in HM. injection HM as <- <-. constructor.
    + rewrite Match_New_cons in HM.
      destruct (Match rt s r) as [[[found r1] s1]|] eqn:E; [| discriminate HM].
      simpl in HM. destruct found as [h1|]; [discriminate HM |].
      econstructor; [exact E | by apply IH].
  - induction 1 as [s r | rt routes s r s1 r1 s2 r2 Hfail _ IH]; [done |].
    rewrite Match_New_cons, Hfail. exact IH.
Qed.

(** Of two routers that both match, the first one's handler is returned
    and served. *)
Lemma New_prefers_first user_handler first second s r h r' s' :
  Match first s r = Ok (Some h, r', s') →
  Match (New [first; second]) s r = Ok (Some h, r', s') ∧
  Router_ServeHTTP pool_choice user_handler (New [first; second]) s r
    = Ok (Handler_ServeHTTP user_handler h s' r').
Proof.
  intros Hm.
  assert (Match (New [first; second]) s r = Ok (Some h, r', s')) as HN.
  { apply (New_Match_first [] first [second] s r s r); [constructor | done]. }
  split; [done |]. unfold Router_ServeHTTP. by rewrite HN.
Qed.

End Composite.

Example New_first_registered_wins :
  ∃ a b s r' s',
    (Route "/users/:id" (OfHandlerFunc 1) empty_store ≫= λ '(a, s1),
     Route "/users/*rest" (OfHandlerFunc 2) s1 ≫= λ '(b, s2), Ok (a, b, s2)) = Ok (a, b, s) ∧
    (∃ r1 s1, Match lifo b s (get "/users/7" NilBody) = Ok (Some (handle (UserHandler 2)), r1, s1)) ∧
    Match lifo (New [a; b]) s (get "/users/7" NilBody) = Ok (Some (handle (UserHandler 1)), r', s') ∧
    Match lifo (New [b; a]) s (get "/users/7" NilBody) ≠ Ok (Some (handle (UserHandler 1)), r', s').
Proof.
  eexists _, _, _, _, _. split; [reflexivity |].
  split; [eexists _, _; reflexivity |]. split; [reflexivity | discriminate].
Qed.

(** ** The carrier of a dynamic match *)

Section DynamicRoutes.

Variable pool_choice : list loc → option nat.

(** A successful match leaves the drawn carrier attached: the request
    points to it and it holds the body the request arrived with. *)
Lemma Match_dynamic_Some segments ts pid wrapped s r h r' s' :
  store_wf s →
  Match pool_choice (DynamicRoute segments ts pid wrapped) s r = Ok (Some h, r', s') →
  ∃ l c P,
    h = wrapped ∧ r' = set_Body (CarrierPtr l) r ∧
    heap s' !! l = Some c ∧ pool c = Some pid ∧ ReadCloser c = Body r ∧
    pools s' !! pid = Some P ∧ pattern c = New_pattern P ∧
    store_wf s' ∧
    Pool_size pid s ≤ S (Pool_size pid s') ∧
    (∀ pid0, pid0 ≠ pid → Pool_size pid0 s = Pool_size pid0 s').
Proof.
  intros Hwf HM. destruct (Match_dynamic_inv _ _ _ _ _ _ _ _ _ _ HM)
    as (l & s1 & c0 & matched & ps & HG & Hc0 & _ & Hres).
  destruct (Pool_Get_facts _ _ _ _ _ Hwf HG) as (_ & Hwf1 & (c1 & Hc1 & Hpool) & Hsz & Hoth & _).
  assert (c1 = c0) as -> by congruence.
  cbn zeta in Hres. destruct Hres as [(_ & [= <-] & E) | (_ & [=] & _)].
  set (s2 := set_heap (<[l := set_params ps c0]> (heap s1)) s1) in *.
  assert (heap s2 !! l = Some (set_params ps c0)) as Hl2.
  { simpl. apply list_lookup_insert_eq. by eapply lookup_lt_Some. }
  assert (store_wf s2) as Hwf2 by (by eapply update_wf).
  assert (r' = set_Body (CarrierPtr l) r ∧ s' = (wrap l s2 r).2) as [-> ->].
  { unfold wrap in E. injection E as -> ->. done. }
  destruct (proj2 Hwf1 _ _ _ Hc0 Hpool) as (P & HP & Hpat & _).
  assert (store_wf (wrap l s2 r).2) as Hwf' by (by apply wrap_wf).
  exists l, (set_ReadCloser (Body r) (set_params ps c0)), P.
  split; [done |]. split; [done |]. split.
  { rewrite (wrap_heap _ _ _ _ Hl2). simpl. apply list_lookup_insert_eq.
    rewrite length_insert. by eapply lookup_lt_Some. }
  by repeat (split; [done |]).
Qed.

(** A failed match puts the drawn carrier back into the pool of the
    route, and no pool loses a carrier. *)
Lemma Match_dynamic_None segments ts pid wrapped s r r' s' :
  store_wf s →
  Match pool_choice (DynamicRoute segments ts pid wrapped) s r = Ok (None, r', s') →
  ∃ l s1 P,
    Pool_Get pool_choice pid s = Some (l, s1) ∧
    pools s' !! pid = Some P ∧ l ∈ free P ∧
    store_wf s' ∧
    ∀ pid0, Pool_size pid0 s ≤ Pool_size pid0 s'.
Proof.
  intros Hwf HM. destruct (Match_dynamic_inv _ _ _ _ _ _ _ _ _ _ HM)
    as (l & s1 & c0 & matched & ps & HG & Hc0 & _ & Hres).
  destruct (Pool_Get_facts _ _ _ _ _ Hwf HG) as (_ & Hwf1 & (c1 & Hc1 & Hpool) & Hsz & Hoth & _).
  assert (c1 = c0) as -> by congruence.
  cbn zeta in Hres. destruct Hres as [(_ & [=] & _) | (_ & _ & E)].
  set (s2 := set_heap (<[l := set_params ps c0]> (heap s1)) s1) in *.
  assert (heap s2 !! l = Some (set_params ps c0)) as Hl2.
  { simpl. apply list_lookup_insert_eq. by eapply lookup_lt_Some. }
  assert (store_wf s2) as Hwf2 by (by eapply update_wf).
  assert (s' = (reset l s2 r).2) as -> by (by rewrite <- E).
  destruct (reset_puts_back l s2 r _ pid Hl2 Hpool Hwf2) as (Hsize & P & HP & Hin).
  assert (store_wf (reset l s2 r).2) as Hwf' by (by apply reset_wf).
  exists l, s1, P. do 4 (split; [done |]).
  intros pid0. destruct (decide (pid0 = pid)) as [-> | Hne].
  - rewrite Hsize. exact Hsz.
  - rewrite (Hoth _ Hne). apply (reset_size_le l s2 r pid0).
Qed.

End DynamicRoutes.

(** ** Sequences of match attempts *)

Section Attempts.

Variable pool_choice : list loc → option nat.

(** With handlers that return with the [req.Body] they were called
    with, a match attempt on a dynamic route leaves the store that it
    leaves with handlers that do nothing. *)
Lemma attempt_keeps_Body user_handler segments ts pid f a s :
  keeps_Body user_handler →
  attempt pool_choice user_handler (DynamicRoute segments ts pid (handle (UserHandler f))) a s
    = attempt pool_choice leaves_request
        (DynamicRoute segments ts pid (handle (UserHandler f))) a s.
Proof.
  intros Hk. unfold attempt.
  destruct (Match _ _ _ _) as [[[[h|] r1] s1]|] eqn:HM; [| done | done].
  destruct (Match_dynamic_inv _ _ _ _ _ _ _ _ _ _ HM)
    as (l & s0 & c & matched & ps & _ & _ & _ & Hres).
  cbn zeta in Hres. destruct Hres as [(_ & [= ->] & E) | (_ & [=] & _)].
  assert (r1 = set_Body (CarrierPtr l) a.1) as ->.
  { unfold wrap in E. by injection E as <- _. }
  cbn [mbind Result_bind]. destruct a.2; [| done].
  by rewrite !handle_keeps_Body_store by (done || apply leaves_request_keeps_Body).
Qed.

Lemma attempts_keeps_Body user_handler segments ts pid f reqs s :
  keeps_Body user_handler →
  attempts pool_choice user_handler (DynamicRoute segments ts pid (handle (UserHandler f)))
    reqs s
    = attempts pool_choice leaves_request
        (DynamicRoute segments ts pid (handle (UserHandler f))) reqs s.
Proof.
  intros Hk. revert s. induction reqs as [| a reqs IH]; intros s; [done |].
  cbn [attempts]. rewrite (attempt_keeps_Body user_handler) by done.
  destruct (attempt pool_choice leaves_request _ a s) as [s1|]; [| done].
  cbn [mbind Result_bind]. apply IH.
Qed.

Lemma attempt_dynamic segments ts pid f a s s' :
  store_wf s →
  attempt pool_choice leaves_request (DynamicRoute segments ts pid (handle (UserHandler f))) a s
    = Ok s' →
  store_wf s' ∧ ∀ pid0, Pool_size pid0 s ≤ Pool_size pid0 s'.
Proof.
  intros Hwf. unfold attempt.
  destruct (Match _ _ _ _) as [[[[h|] r1] s1]|] eqn:HM; simpl; [| | discriminate].
  - destruct (Match_dynamic_Some _ _ _ _ _ _ _ _ _ _ Hwf HM)
      as (l & c & P & -> & -> & Hl & Hpool & _ & _ & _ & Hwf1 & Hsz & Hoth).
    assert (s' = (reset l s1 (set_Body (CarrierPtr l) (a.1))).2 →
            store_wf s' ∧ ∀ pid0, Pool_size pid0 s ≤ Pool_size pid0 s') as Hreset.
    { intros ->. split; [by apply reset_wf |]. intros pid0.
      destruct (decide (pid0 = pid)) as [-> | Hne].
      - destruct (reset_puts_back l s1 (set_Body (CarrierPtr l) (a.1)) c pid Hl Hpool Hwf1)
          as [-> _]. exact Hsz.
      - rewrite (Hoth _ Hne). apply reset_size_le. }
    destruct (a.2); intros [= <-]; by apply Hreset.
  - intros [= <-].
    destruct (Match_dynamic_None _ _ _ _ _ _ _ _ _ Hwf HM) as (_ & _ & _ & _ & _ & _ & ? & ?).
    done.
Qed.

(** A carrier that a dynamic route draws for a match that fails is back
    in the pool of that route when [Match] returns.
    With handlers that return with the [req.Body] they were called with,
    no pool ends a sequence of match attempts, each handler served or
    recycled, with fewer free carriers than it began with. *)
Lemma keeps_Body_keeps_carriers user_handler segments ts pid f s :
  keeps_Body user_handler → store_wf s →
  let rt := DynamicRoute segments ts pid (handle (UserHandler f)) in
  (∀ r r' s',
     Match pool_choice rt s r = Ok (None, r', s') →
     ∃ l s1 P,
       Pool_Get pool_choice pid s = Some (l, s1) ∧
       pools s' !! pid = Some P ∧ l ∈ free P ∧
       Pool_size pid s ≤ Pool_size pid s') ∧
  (∀ reqs s',
     attempts pool_choice user_handler rt reqs s = Ok s' →
     ∀ pid0, Pool_size pid0 s ≤ Pool_size pid0 s').
Proof.
  intros Hk Hwf rt. split.
  - intros r r' s' HM.
    destruct (Match_dynamic_None _ _ _ _ _ _ _ _ _ Hwf HM) as (l & s1 & P & ? & ? & ? & _ & ?).
    exists l, s1, P. auto.
  - intros reqs s'. unfold rt. rewrite attempts_keeps_Body by done. clear Hk.
    revert s Hwf. induction reqs as [| a reqs IH]; intros s Hwf Hrun pid0.
    + injection Hrun as <-. done.
    + simpl in Hrun. destruct (attempt pool_choice leaves_request _ a s) as [s1|] eqn:Ea;
        [| discriminate].
      destruct (attempt_dynamic _ _ _ _ _ _ _ Hwf Ea) as [Hwf1 Hsz]. simpl in Hrun.
      etrans; [apply Hsz | by apply IH].
Qed.

End Attempts.

(** C6.  The pool of a dynamic route loses a carrier when the handler
    that is served assigns [req.Body]: [handle] resets the carrier only
    if [req.Body] still is the carrier when the user's handler returns,
    so the carrier that [Match] drew is not put back.  On the route
    [/a/:b] a failed match leaves one free carrier in the pool; the
    served match that follows draws it and leaves the pool empty, the
    carrier still holding the parameter of that request; a third match
    then has to allocate. *)
Theorem served_match_leaks_carrier :
  ∃ rt s s1 s2 s3,
    Route "/a/:b" (OfHandlerFunc 0) empty_store = Ok (rt, s) ∧
    attempt lifo assigns_Body rt (get "/x" NilBody, Served) s = Ok s1 ∧
    attempt lifo assigns_Body rt (get "/a/x" (HostBody 1), Served) s1 = Ok s2 ∧
    attempt lifo assigns_Body rt (get "/a/y" (HostBody 2), Served) s2 = Ok s3 ∧
    Pool_size 0 s1 = 1 ∧ Pool_size 0 s2 = 0 ∧ Pool_size 0 s3 = 0 ∧
    length (heap s1) = 1 ∧ length (heap s2) = 1 ∧ length (heap s3) = 2 ∧
    params <$> heap s3 !! 0 = Some [{| Key := "b"; Value := "x" |}] ∧
    (∃ h r1 s1' r2,
       Match lifo rt s1 (get "/a/x" (HostBody 1)) = Ok (Some h, r1, s1') ∧
       Body r1 = CarrierPtr 0 ∧
       Handler_ServeHTTP assigns_Body h s1' r1 = (r2, s2) ∧
       Body r2 = HostBody 42 ∧ s2 = s1').
Proof.
  eexists _, _, _, _, _. split; [reflexivity |].
  split; [vm_compute; reflexivity |]. split; [vm_compute; reflexivity |].
  split; [vm_compute; reflexivity |].
  do 7 (split; [reflexivity |]).
  eexists _, _, _, _. split; [vm_compute; reflexivity |]. split; [reflexivity |].
  split; [vm_compute; reflexivity |]. split; reflexivity.
Qed.

Example a_b_registered : Route "/a/:b" (OfHandlerFunc 0) empty_store = Ok (a_b_router, a_b_store).
Proof. reflexivity. Qed.

Lemma a_b_store_wf : store_wf a_b_store.
Proof. apply (add_pool_wf empty_store); [done | apply empty_store_wf]. Defined.

(** An instance: the route [/a/:b], a served match, a failed match and
    a recycled match, with a handler that does nothing. *)
Example a_b_attempts :
  attempts lifo leaves_request a_b_router a_b_requests a_b_store = Ok a_b_final ∧
  Pool_size 0 a_b_store = 0 ∧ Pool_size 0 a_b_final = 1.
Proof. repeat split. Qed.

(** A handler that recycles the request itself: [handle] then finds no
    carrier and the carrier is put back once. *)
Example a_b_calls_Recycle :
  ∃ s', Router_ServeHTTP lifo calls_Recycle a_b_router a_b_store a_x_request
          = Ok (a_x_request, s') ∧
        Pool_size 0 s' = 1.
Proof. eexists. split; [vm_compute; reflexivity | reflexivity]. Qed.

Example a_b_keeps_carriers : Pool_size 0 a_b_store ≤ Pool_size 0 a_b_final.
Proof.
  exact (proj2 (keeps_Body_keeps_carriers lifo leaves_request ["/a"; "/:b"] false 0 0 a_b_store
                  leaves_request_keeps_Body a_b_store_wf) a_b_requests a_b_final eq_refl 0).
Qed.

(** ** Routers built by Route *)

Lemma as_handler_Ok handler h : as_handler handler = Ok h → ∃ f, h = UserHandler f.
Proof. destruct handler; intros [=]; by eexists. Qed.

Section RouteMatch.

Variable pool_choice : list loc → option nat.

(** A successful match of a router that [Route] built, in any later
    well-formed store: the request leaves with a carrier attached that
    holds the normalized pattern and the body the request arrived with.
    A static route returns the user's handler, a dynamic route the
    closure around it. *)
Lemma Route_Match_Some path handler s0 rt s1 s r h r' s' :
  store_wf s0 → Route path handler s0 = Ok (rt, s1) →
  store_le s1 s → store_wf s →
  Match pool_choice rt s r = Ok (Some h, r', s') →
  ∃ l c,
    r' = set_Body (CarrierPtr l) r ∧ heap s' !! l = Some c ∧
    pattern c = normalize path ∧ ReadCloser c = Body r ∧ store_wf s' ∧
    ((IndexAny (normalize path) ":*" = None ∧ ∃ f, h = UserHandler f) ∨
     (is_Some (IndexAny (normalize path) ":*") ∧ ∃ f, h = handle (UserHandler f))).
Proof.
  intros Hwf0 HR Hle Hwf HM.
  destruct (Match_preserves _ _ _ _ _ _ _ Hwf HM) as [Hle' Hwf'].
  apply Route_inv in HR as (h0 & [f ->]%as_handler_Ok & HR). cbn zeta in HR.
  destruct HR as [(Hidx & -> & ->) | (Hidx & segments & _ & -> & ->)].
  - destruct (proj1 Hle (length (heap s0)) (static_carrier (normalize path)))
      as (c & Hc & Hpat & _); [apply alloc_lookup_new |].
    destruct (Match_static_Some _ _ _ _ _ _ _ _ _ _ Hc HM)
      as (Hc' & _ & _ & -> & ->).
    exists (length (heap s0)), (set_ReadCloser (Body r) c).
    split; [done |]. split; [done |]. split; [simpl in *; congruence |].
    split; [done |]. split; [done |]. left. split; [done | by exists f].
  - destruct (Match_dynamic_Some _ _ _ _ _ _ _ _ _ _ Hwf HM)
      as (l & c & P & -> & -> & Hl & _ & HRC & HP & Hpat & _).
    destruct (proj2 Hle (length (pools s0)) (dynamic_pool (normalize path)))
      as (P1 & HP1 & _ & Hpat1).
    { simpl. rewrite lookup_app_r by lia. by rewrite Nat.sub_diag. }
    destruct (proj2 Hle' _ _ HP1) as (P2 & HP2 & _ & Hpat2).
    assert (P2 = P) as -> by congruence.
    exists l, c. split; [done |]. split; [done |].
    split; [simpl in *; congruence |].
    split; [done |]. split; [done |]. right. split; [done | by exists f].
Qed.

(** C8, as the code has it.  After a successful match of a router that
    [Route] built, and until the carrier is released, [Pattern] returns
    the normalized pattern: a slash followed by the registration string
    without its leading slashes. *)
Theorem Pattern_is_normalized_pattern path handler s0 rt s1 s r h r' s'
    (Hwf0 : store_wf s0)
    (HR : Route path handler s0 = Ok (rt, s1))
    (Hle : store_le s1 s) (Hwf : store_wf s)
    (HM : Match pool_choice rt s r = Ok (Some h, r', s')) :
  Pattern s' r' = normalize path.
Proof.
  destruct (Route_Match_Some _ _ _ _ _ _ _ _ _ _ Hwf0 HR Hle Hwf HM)
    as (l & c & -> & Hl & Hpat & _).
  unfold Pattern. simpl. by rewrite Hl.
Qed.

(** A registration string that starts with exactly one slash is its own
    normalized pattern. *)
Lemma normalize_id c path :
  c ≠ "/"%char → normalize (String "/" (String c path)) = String "/" (String c path).
Proof.
  intros Hc. unfold normalize. cbn [TrimLeft ContainsByte].
  rewrite Ascii.eqb_refl, !orb_false_r. cbn [orb].
  by destruct (Ascii.eqb_spec c "/").
Qed.

(** C9.  A request that arrives without a carrier is matched by a
    router that [Route] built and then released, by [Recycle] or, for a
    dynamic route, by serving the handler that was returned.  The request
    is then without a carrier again, and a further [Recycle] returns the
    request and the store unchanged: nothing is put into a pool and no
    carrier is assigned.  Served around a user's handler that does
    nothing, the request is as it arrived; served around any handler
    that returns with the [req.Body] it was called with, the request has
    the body it arrived with. *)
Theorem Recycle_after_release_is_noop path handler s0 rt s1 s r h r1 s2
    (Hwf0 : store_wf s0)
    (HR : Route path handler s0 = Ok (rt, s1))
    (Hle : store_le s1 s) (Hwf : store_wf s)
    (Hfresh : parameterized r = None)
    (HM : Match pool_choice rt s r = Ok (Some h, r1, s2)) :
  (let '(r3, s3) := Recycle s2 r1 in
   r3 = r ∧ Pattern s3 r3 = "" ∧ Recycle s3 r3 = (r3, s3)) ∧
  (is_Some (IndexAny (normalize path) ":*") →
   let '(r3, s3) := Handler_ServeHTTP leaves_request h s2 r1 in
   r3 = r ∧ Pattern s3 r3 = "" ∧ Recycle s3 r3 = (r3, s3)) ∧
  (is_Some (IndexAny (normalize path) ":*") →
   ∀ user_handler, keeps_Body user_handler →
   let '(r3, s3) := Handler_ServeHTTP user_handler h s2 r1 in
   Body r3 = Body r ∧ Pattern s3 r3 = "" ∧ Recycle s3 r3 = (r3, s3)).
Proof.
  destruct (Route_Match_Some _ _ _ _ _ _ _ _ _ _ Hwf0 HR Hle Hwf HM)
    as (l & c & -> & Hl & _ & HRC & _ & Hkind).
  assert (let '(r3, s3) := reset l s2 (set_Body (CarrierPtr l) r) in
          r3 = r ∧ Pattern s3 r3 = "" ∧ Recycle s3 r3 = (r3, s3)) as Hreset.
  { pose proof (reset_Body l s2 (set_Body (CarrierPtr l) r) c Hl) as HB.
    pose proof (reset_URL_Path l s2 (set_Body (CarrierPtr l) r)) as HU.
    destruct (reset l s2 (set_Body (CarrierPtr l) r)) as [r3 s3]. simpl in HB, HU.
    assert (r3 = r) as -> by (destruct r, r3; simpl in *; congruence).
    unfold Pattern, Recycle. by rewrite Hfresh. }
  split; [exact Hreset |]. split.
  - intros [i Hi]. destruct Hkind as [[Hnone _] | [_ [f ->]]]; [congruence |].
    exact Hreset.
  - intros [i Hi] user_handler Hk.
    destruct Hkind as [[Hnone _] | [_ [f ->]]]; [congruence |].
    rewrite handle_keeps_Body by done.
    set (r1' := (user_handler f s2 (set_Body (CarrierPtr l) r)).1).
    pose proof (reset_Body l s2 r1' c Hl) as HB.
    destruct (reset l s2 r1') as [r3 s3]. simpl in HB.
    assert (parameterized r3 = None) as Hnone.
    { unfold parameterized in *. by rewrite HB, HRC. }
    split; [congruence |]. unfold Pattern, Recycle. by rewrite Hnone.
Qed.

End RouteMatch.

(** C8 as stated fails: for a registration string without a leading
    slash, or with several, [Pattern] returns the normalized pattern and
    not the string that was registered. *)
Lemma Pattern_is_not_registration_string :
  (∃ rt s r' s',
     Route "users/hello" (OfHandlerFunc 0) empty_store = Ok (rt, s) ∧
     Match lifo rt s (get "/users/hello" NilBody) = Ok (Some (UserHandler 0), r', s') ∧
     Pattern s' r' = "/users/hello" ∧ Pattern s' r' ≠ "users/hello") ∧
  (∃ rt s r' s',
     Route "//a/:b" (OfHandlerFunc 0) empty_store = Ok (rt, s) ∧
     Match lifo rt s (get "/a/x" NilBody) = Ok (Some (handle (UserHandler 0)), r', s') ∧
     Pattern s' r' = "/a/:b" ∧ Pattern s' r' ≠ "//a/:b").
Proof.
  split; eexists _, _, _, _; (split; [reflexivity |]); (split; [reflexivity |]);
    (split; [reflexivity | discriminate]).
Qed.

Example a_x_matched :
  Match lifo a_b_router a_b_store a_x_request
    = Ok (Some (handle (UserHandler 0)), a_x_attached, a_x_store).
Proof. reflexivity. Qed.

(** An instance: the route [/a/:b] and the path [/a/x]. *)
Lemma Pattern_is_normalized_pattern_witness :
  Pattern a_x_store a_x_attached = normalize "/a/:b".
Proof.
  exact (Pattern_is_normalized_pattern lifo "/a/:b" (OfHandlerFunc 0) empty_store
           a_b_router a_b_store a_b_store a_x_request (handle (UserHandler 0))
           a_x_attached a_x_store
           empty_store_wf eq_refl (store_le_refl _) a_b_store_wf eq_refl).
Defined.

(** An instance: the route [/a/:b] and a request for [/a/x] with a
    body, recycled after the match. *)
Lemma Recycle_after_release_is_noop_witness :
  let '(r3, s3) := Recycle a_x_store a_x_attached in
  r3 = a_x_request ∧ Pattern s3 r3 = "" ∧ Recycle s3 r3 = (r3, s3).
Proof.
  exact (proj1 (Recycle_after_release_is_noop lifo "/a/:b" (OfHandlerFunc 0) empty_store
                  a_b_router a_b_store a_b_store a_x_request (handle (UserHandler 0))
                  a_x_attached a_x_store
                  empty_store_wf eq_refl (store_le_refl _) a_b_store_wf eq_refl eq_refl)).
Defined.

(** ** Registration failures *)

(** C7.  [Route] panics for a handler whose dynamic type is neither
    [http.HandlerFunc] nor a plain function, also when the value
    implements [http.Handler]; the doc comment of [Route] lists
    [http.Handler] as an accepted format.  The two types of the switch
    are accepted. *)
Theorem Route_rejects_other_Handler path k s :
  Route path (OfOtherHandler k) s = Panic "not a handler given" ∧
  (∃ rt s', Route "/" (OfHandlerFunc k) s = Ok (rt, s')) ∧
  (∃ rt s', Route "/" (OfFunc k) s = Ok (rt, s')).
Proof. split; [reflexivity |]. split; eexists _, _; reflexivity. Qed.

(** *** Pattern validation *)

Lemma ContainsByte_markers c : ContainsByte ":*" c = is_marker c.
Proof. unfold is_marker. simpl. by rewrite orb_false_r. Qed.

Lemma IndexAny_markers s :
  IndexAny s ":*" = None ↔ count_markers s = 0.
Proof.
  induction s as [|c s IH]; [done |].
  cbn [IndexAny count_markers]. rewrite ContainsByte_markers.
  destruct (is_marker c); [split; [done | lia] |].
  destruct (IndexAny s ":*"); simpl in *; split; intros H; try done.
  - by apply IH in H.
  - by apply IH.
Qed.

Lemma IndexAny_zero s i :
  IndexAny s ":*" = Some i →
  (i = 0 ↔ match s with String c _ => is_marker c = true | EmptyString => False end).
Proof.
  destruct s as [|c s]; [done |]. cbn [IndexAny]. rewrite ContainsByte_markers.
  destruct (is_marker c); [intros [= <-]; done |].
  destruct (IndexAny s ":*"); intros [= <-]; split; intros; done.
Qed.

Lemma count_markers_IndexAny s i : IndexAny s ":*" = Some i → count_markers s ≠ 0.
Proof. intros H H0%IndexAny_markers. congruence. Qed.

(** One turn of the loop of [Route]: it panics exactly on an invalid
    segment and goes on to the next segment otherwise. *)
Lemma prepare_segments_cons p seg segs i n :
  (segment_invalid (i + 1 =? n)%nat seg = true ∧
   ∃ msg, prepare_segments p (seg :: segs) i n = Panic msg) ∨
  (segment_invalid (i + 1 =? n)%nat seg = false ∧
   prepare_segments p (seg :: segs) i n =
     rest ← prepare_segments p segs (S i) n; Ok (String "/" seg :: rest)).
Proof.
  unfold segment_invalid, marker_not_after_separator, marker_without_name,
    catch_all_not_final, several_markers.
  destruct seg as [|c tl]; [by right |].
  cbn [prepare_segments IndexAny count_markers]. rewrite ContainsByte_markers.
  destruct (is_marker c) eqn:Hc.
  - cbn [Nat.eqb negb String.length Nat.sub String.get SliceFrom].
    destruct tl as [|d tl].
    { left. split; [done | by eexists]. }
    cbn [String.length Nat.eqb].
    destruct (Ascii.eqb c "*" && negb (i + 1 =? n)%nat) eqn:Estar.
    { left. split; [by rewrite !orb_true_r | by eexists]. }
    destruct (IndexAny (String d tl) ":*") as [j|] eqn:Ej; cbn [is_Some_b].
    + left. apply count_markers_IndexAny in Ej.
      split; [| by eexists]. by destruct (count_markers (String d tl)).
    + right. apply IndexAny_markers in Ej. rewrite Ej. done.
  - assert (Ascii.eqb c "*" = false) as Hstar.
    { unfold is_marker in Hc. by apply orb_false_elim in Hc as [_ ?]. }
    rewrite Hstar. destruct (IndexAny tl ":*") as [j|] eqn:Ej.
    + left. apply count_markers_IndexAny in Ej.
      split; [| by eexists]. by destruct (count_markers tl).
    + right. apply IndexAny_markers in Ej. rewrite Ej. split; [| done].
      by destruct tl.
Qed.

(** The loop of [Route] returns the segments with their slash when
    every segment is valid, and panics when some segment is not. *)
Lemma prepare_segments_spec p segs :
  ∀ i n,
    match prepare_segments p segs i n with
    | Ok segments =>
        segments = map (String "/") segs ∧
        ∀ k seg, segs !! k = Some seg → segment_invalid (i + k + 1 =? n)%nat seg = false
    | Panic _ =>
        ∃ k seg, segs !! k = Some seg ∧ segment_invalid (i + k + 1 =? n)%nat seg = true
    end.
Proof.
  induction segs as [| seg segs IH]; intros i n; [by split |].
  destruct (prepare_segments_cons p seg segs i n) as [[Hinv [msg ->]] | [Hval ->]].
  - exists 0, seg. by rewrite Nat.add_0_r.
  - specialize (IH (S i) n). destruct (prepare_segments p segs (S i) n) as [rest|]; simpl.
    + destruct IH as [-> IH]. split; [done |].
      intros [|k] s; simpl.
      * intros [= <-]. by rewrite Nat.add_0_r.
      * intros Hk. replace (i + S k + 1) with (S i + k + 1) by lia. by apply IH.
    + destruct IH as (k & s & Hk & Hs). exists (S k), s.
      split; [done |]. by replace (i + S k + 1) with (S i + k + 1) by lia.
Qed.

(** X15.  With a handler of one of the two types of the switch, [Route]
    panics exactly when the pattern has a marker and one of its segments
    is invalid: a marker that is not the first byte of the segment, a
    marker without a name, a catch-all segment that is not the last, or
    more than one marker.  This happens at registration, before any
    router exists. *)
Lemma Route_panics_iff_invalid_segment path handler h s :
  as_handler handler = Ok h →
  let p := normalize path in
  let segs := Split (Trim p "/") "/" in
  (∃ msg, Route path handler s = Panic msg) ↔
  (is_Some (IndexAny p ":*") ∧
   ∃ k seg, segs !! k = Some seg ∧ segment_invalid (k + 1 =? length segs)%nat seg = true).
Proof.
  intros Hh p segs. unfold Route. rewrite Hh. cbn [mbind Result_bind]. fold p. fold segs.
  pose proof (prepare_segments_spec p segs 0 (length segs)) as Hspec.
  destruct (IndexAny p ":*") as [i|] eqn:Ei.
  - destruct (prepare_segments p segs 0 (length segs)) as [segments|msg]; simpl.
    + destruct Hspec as [_ Hvalid]. split; [intros [? [=]] |].
      intros (_ & k & seg & Hk & Hinv). specialize (Hvalid k seg Hk).
      simpl in Hvalid. congruence.
    + split; [| by eexists]. intros _. split; [by eexists | done].
  - split; [intros [? [=]] | intros [[? [=]] _]].
Qed.

(** A pattern with an empty segment before a marker passes
    registration, and the matcher then panics on [seg[1]] when a request
    reaches that segment. *)
Example empty_segment_panics_at_request_time :
  ∃ rt s,
    Route "/a//:b" (OfHandlerFunc 0) empty_store = Ok (rt, s) ∧
    Match lifo rt s (get "/a/x" NilBody) = Panic "index out of range".
Proof. eexists _, _. split; reflexivity. Qed.

(** After a static route's handler was served the carrier is still
    attached; [Recycle] then restores the body and touches neither a
    pool nor a carrier. *)
Lemma Recycle_static_served pool_choice p ps h s r h' r1 s1 c :
  heap s !! ps = Some c → pool c = None →
  Match pool_choice (StaticRoute p ps h) s r = Ok (Some h', r1, s1) →
  Recycle s1 r1 = (r, s1).
Proof.
  intros Hc Hpool HM.
  destruct (Match_static_Some _ _ _ _ _ _ _ _ _ _ Hc HM)
    as (Hc' & _ & _ & -> & _).
  unfold Recycle. simpl. rewrite (reset_unpooled _ _ _ _ Hc' Hpool). by destruct r.
Qed.

(** ** The matcher does not panic on the segments Route prepares *)

Lemma count_params_cons seg segments :
  count_params (seg :: segments) =
    (if is_param_segment seg then 1 else 0) + count_params segments.
Proof.
  unfold count_params. rewrite filter_cons. by destruct (is_param_segment seg).
Qed.

(** With room in the slice for every parameter segment, and no segment
    shorter than two bytes, [match] returns. *)
Lemma match_returns cmp segments :
  Forall (λ seg, 2 ≤ String.length seg) segments →
  ∀ url ps cap ts,
    length ps + count_params segments ≤ cap →
    ∃ matched ps', match_ cmp segments url ps cap ts = Ok (matched, ps').
Proof.
  induction 1 as [| seg segments Hlen _ IH]; intros url ps cap ts Hcap; [by eexists _, _ |].
  rewrite count_params_cons in Hcap. cbn [match_].
  destruct (String.length url =? 0)%nat; [by eexists _, _ |].
  unfold is_param_segment, is_marker in Hcap.
  destruct seg as [|c0 [|c1 seg]]; simpl in Hlen; [lia | lia |].
  cbn [String.get Nat.eqb] in *.
  destruct (Ascii.eqb c1 ":") eqn:E1; cbn [orb] in Hcap.
  - replace (cap <? length ps + 1)%nat with false by (symmetry; apply Nat.ltb_ge; lia).
    apply IH. rewrite length_app. simpl. lia.
  - destruct (Ascii.eqb c1 "*") eqn:E2.
    + replace (cap <? length ps + 1)%nat with false by (symmetry; apply Nat.ltb_ge; lia).
      by eexists _, _.
    + destruct (_ <? _)%nat; [by eexists _, _ |].
      destruct (cmp _ _); [| by eexists _, _]. apply IH. lia.
Qed.

Lemma count_markers_Count s : count_markers s = Count s ":" + Count s "*".
Proof.
  induction s as [|c s IH]; [done |]. cbn [count_markers Count]. rewrite IH.
  unfold is_marker.
  destruct (Ascii.eqb_spec c ":") as [-> |]; [simpl; lia |].
  destruct (Ascii.eqb c "*"); simpl; lia.
Qed.

Lemma ContainsByte_slash c : ContainsByte "/" c = Ascii.eqb c "/".
Proof. simpl. by rewrite orb_false_r. Qed.

Lemma is_marker_slash c : Ascii.eqb c "/" = true → is_marker c = false.
Proof. by intros ->%Ascii.eqb_eq. Qed.

Lemma count_markers_TrimLeft s : count_markers (TrimLeft s "/") = count_markers s.
Proof.
  induction s as [|c s IH]; [done |]. cbn [TrimLeft]. rewrite ContainsByte_slash.
  destruct (Ascii.eqb c "/") eqn:E; [| done].
  rewrite IH. cbn [count_markers]. by rewrite (is_marker_slash _ E).
Qed.

Lemma count_markers_TrimRight s : count_markers (TrimRight s "/") = count_markers s.
Proof.
  induction s as [|c s IH]; [done |]. cbn [TrimRight count_markers]. rewrite <- IH.
  destruct (TrimRight s "/") as [|d r]; [| done]. rewrite ContainsByte_slash.
  destruct (Ascii.eqb c "/") eqn:E; [| done]. by rewrite (is_marker_slash _ E).
Qed.

Lemma count_markers_Split s :
  sum_list (map count_markers (Split s "/")) = count_markers s.
Proof.
  induction s as [|c s IH]; [done |]. cbn [Split count_markers].
  destruct (Ascii.eqb c "/") eqn:E.
  - rewrite (is_marker_slash _ E). simpl. exact IH.
  - destruct (Split s "/") as [|x xs]; cbn [map sum_list count_markers] in *;
      destruct (is_marker c); unfold id in *; lia.
Qed.

Lemma count_params_prepared segs :
  count_params (map (String "/") segs) ≤ sum_list (map count_markers segs).
Proof.
  induction segs as [|seg segs IH]; [done |].
  cbn [map]. rewrite count_params_cons. simpl sum_list.
  assert ((if is_param_segment (String "/" seg) then 1 else 0) ≤ count_markers seg);
    [| lia].
  unfold is_param_segment. destruct seg as [|c seg]; [done |]. simpl.
  destruct (is_marker c); lia.
Qed.

(** The segments of a dynamic route have at most as many parameter
    segments as the capacity [num] that [Route] computes. *)
Lemma Route_capacity path handler s0 segments ts pid wrapped s1 :
  Route path handler s0 = Ok (DynamicRoute segments ts pid wrapped, s1) →
  let p := normalize path in
  segments = map (String "/") (Split (Trim p "/") "/") ∧
  count_params segments ≤ Count p ":" + Count p "*".
Proof.
  intros (h & _ & HR)%Route_inv. cbn zeta in *.
  destruct HR as [(_ & [=] & _) | (_ & segs & Hprep & [= -> -> -> ->] & _)].
  pose proof (prepare_segments_spec (normalize path) (Split (Trim (normalize path) "/") "/")
                0 (length (Split (Trim (normalize path) "/") "/"))) as Hspec.
  rewrite Hprep in Hspec. destruct Hspec as [-> _]. split; [done |].
  etrans; [apply count_params_prepared |].
  rewrite count_markers_Split. unfold Trim.
  by rewrite count_markers_TrimRight, count_markers_TrimLeft, count_markers_Count.
Qed.

(** A pattern without an empty segment: the matcher of its route, run
    on the empty slice of a new carrier, always returns. *)
Lemma Route_match_returns path handler s0 segments ts pid wrapped s1 cmp url :
  Route path handler s0 = Ok (DynamicRoute segments ts pid wrapped, s1) →
  Forall (λ seg, seg ≠ "") (Split (Trim (normalize path) "/") "/") →
  ∃ matched ps,
    match_ cmp segments url [] (Count (normalize path) ":" + Count (normalize path) "*") ts
      = Ok (matched, ps).
Proof.
  intros HR Hnonempty. destruct (Route_capacity _ _ _ _ _ _ _ _ HR) as [-> Hcap].
  apply match_returns; [| exact Hcap].
  apply Forall_map. eapply Forall_impl; [exact Hnonempty |].
  intros [|c seg] Hne; [done |]. simpl. lia.
Qed.

(** ** Match attempts always return *)

Lemma update_clean s l c' :
  not_free l s → pools_clean s →
  let s' := set_heap (<[l := c']> (heap s)) s in
  pools_clean s' ∧ not_free l s'.
Proof.
  intros Hnf Hclean. split; [| done].
  intros pid P HP. destruct (Hclean pid P HP) as [Hnd Hfree]. split; [done |].
  intros l0 Hl0. destruct (Hfree l0 Hl0) as (c & Hc & Hps). exists c. split; [| done].
  simpl. rewrite list_lookup_insert_ne; [done |]. intros <-. by apply (Hnf pid P).
Qed.

Lemma wrap_clean l s r : pools_clean s → pools_clean (wrap l s r).2.
Proof.
  intros Hclean pid P HP. destruct (Hclean pid P HP) as [Hnd Hfree]. split; [done |].
  intros l0 Hl0. destruct (Hfree l0 Hl0) as (c & Hc & Hps).
  destruct (decide (l0 = l)) as [-> | Hne].
  - exists (set_ReadCloser (Body r) c). rewrite (wrap_heap _ _ _ _ Hc). simpl.
    split; [| done]. apply list_lookup_insert_eq. by eapply lookup_lt_Some.
  - exists c. split; [| done]. unfold wrap. simpl. by rewrite list_lookup_alter_ne.
Qed.

Lemma wrap_not_free l l0 s r : not_free l0 s → not_free l0 (wrap l s r).2.
Proof. done. Qed.

Lemma reset_clean l s r c pid :
  heap s !! l = Some c → pool c = Some pid →
  not_free l s → store_wf s → pools_clean s →
  pools_clean (reset l s r).2.
Proof.
  intros Hl Hpool Hnf [_ Hc] Hclean. destruct (Hc _ _ _ Hl Hpool) as (P & HP & _).
  rewrite (reset_pooled _ _ _ _ _ Hl Hpool). cbn [snd].
  destruct (update_clean s l (set_params [] c) Hnf Hclean) as [Hclean' Hnf'].
  cbn zeta in *. set (s' := set_heap (<[l := set_params [] c]> (heap s)) s) in *.
  assert (heap s' !! l = Some (set_params [] c)) as Hl'.
  { simpl. apply list_lookup_insert_eq. by eapply lookup_lt_Some. }
  intros pid0 P0. rewrite (Pool_Put_pools _ _ _ P) by done.
  destruct (decide (pid0 = pid)) as [-> | Hne].
  - rewrite list_lookup_insert_eq by (by eapply lookup_lt_Some). intros [= <-]. simpl.
    destruct (Hclean' pid P HP) as [Hnd Hfree]. split.
    + apply NoDup_cons. split; [by apply (Hnf' pid P) | done].
    + intros l0 [-> | Hin]%elem_of_cons; [by eexists | by apply Hfree].
  - rewrite list_lookup_insert_ne by done. apply Hclean'.
Qed.

Lemma NoDup_delete_lookup (xs : list nat) i x :
  NoDup xs → xs !! i = Some x → NoDup (delete i xs) ∧ x ∉ delete i xs.
Proof.
  intros Hnd Hi. rewrite <- (take_drop_middle _ _ _ Hi) in Hnd.
  rewrite delete_take_drop.
  apply NoDup_app in Hnd as (Hnd1 & Hnot & [Hnotin Hnd2]%NoDup_cons). split.
  - apply NoDup_app. split; [done |]. split; [| done].
    intros y Hy Hy'. apply (Hnot y Hy). apply elem_of_cons. by right.
  - intros [Hin | Hin]%elem_of_app; [| done].
    apply (Hnot x Hin). apply elem_of_cons. by left.
Qed.

Section Totality.

Variable pool_choice : list loc → option nat.

Lemma Pool_Get_clean pid s P :
  store_wf s → pools_clean s → pools s !! pid = Some P →
  ∃ l s1 c,
    Pool_Get pool_choice pid s = Some (l, s1) ∧
    heap s1 !! l = Some c ∧ params c = [] ∧ params_cap c = New_num P ∧
    pool c = Some pid ∧ compareFunc s1 = compareFunc s ∧
    store_wf s1 ∧ pools_clean s1 ∧ not_free l s1 ∧
    ∃ P1, pools s1 !! pid = Some P1 ∧ same_pool P P1.
Proof.
  intros Hwf Hclean HP.
  assert (∃ l s1, Pool_Get pool_choice pid s = Some (l, s1)) as (l & s1 & HG).
  { destruct (Pool_Get pool_choice pid s) as [[l s1]|] eqn:HG; [by eexists _, _ |].
    exfalso. unfold Pool_Get in HG. rewrite HP in HG. simpl in HG.
    repeat case_match; discriminate HG. }
  destruct (Pool_Get_facts _ _ _ _ _ Hwf HG) as (Hle & Hwf1 & (c & Hc & Hpool) & _ & _ & Hcmp).
  destruct (proj2 Hle _ _ HP) as (P1 & HP1 & Hsame).
  destruct (proj2 Hwf1 _ _ _ Hc Hpool) as (P1' & HP1' & _ & Hcap).
  assert (P1' = P1) as -> by congruence.
  exists l, s1, c. split; [done |]. split; [done |].
  destruct (Pool_Get_inv _ _ _ _ _ HG) as (P' & HP' & Hcase).
  assert (P' = P) as -> by congruence.
  assert (params c = [] ∧ pools_clean s1 ∧ not_free l s1) as (? & ? & ?).
  { destruct Hcase as [Hnew | (i & Hi & ->)].
    - unfold Pool_New, alloc in Hnew. injection Hnew as -> ->.
      simpl in Hc. rewrite lookup_app_r, Nat.sub_diag in Hc by lia.
      injection Hc as <-. split; [done |]. split.
      + intros pid0 P0 HP0. destruct (Hclean pid0 P0 HP0) as [Hnd Hfree]. split; [done |].
        intros l0 Hl0. destruct (Hfree l0 Hl0) as (c0 & Hc0 & Hps0).
        exists c0. split; [by apply lookup_app_l_Some | done].
      + intros pid0 P0 HP0 Hin. destruct (proj1 Hwf pid0 P0 _ HP0 Hin) as (c0 & Hc0 & _).
        apply lookup_lt_Some in Hc0. lia.
    - assert (pid < length (pools s)) as Hlt by (by eapply lookup_lt_Some).
      destruct (Hclean pid P HP) as [Hnd Hfree].
      destruct (Hfree l (list_elem_of_lookup_2 _ _ _ Hi)) as (c0 & Hc0 & Hps0).
      simpl in Hc. assert (c0 = c) as -> by congruence. split; [done |]. split.
      + intros pid0 P0. simpl. destruct (decide (pid0 = pid)) as [-> | Hne].
        * rewrite list_lookup_insert_eq by done. intros [= <-]. simpl. split.
          -- by apply (NoDup_delete_lookup _ _ l).
          -- intros l0 Hl0%list_elem_of_delete_inv. by apply Hfree.
        * rewrite list_lookup_insert_ne by done. apply Hclean.
      + intros pid0 P0. simpl. destruct (decide (pid0 = pid)) as [-> | Hne].
        * rewrite list_lookup_insert_eq by done. intros [= <-]. simpl.
          by apply (NoDup_delete_lookup _ _ l).
        * rewrite list_lookup_insert_ne by done. intros HP0 Hin.
          destruct (proj1 Hwf pid0 P0 l HP0 Hin) as (c1 & Hc1 & Hpool1).
          assert (c1 = c) as -> by congruence. congruence. }
  pose proof Hsame as [Hnum _].
  repeat (split; [done || congruence |]). exists P1. by split.
Qed.

(** In a clean store a match attempt on a dynamic route whose segments
    are matchable returns and leaves a clean store. *)
Lemma attempt_returns segments ts pid f a s P :
  store_wf s → pools_clean s → pools s !! pid = Some P →
  Forall (λ seg, 2 ≤ String.length seg) segments →
  count_params segments ≤ New_num P →
  ∃ s' P',
    attempt pool_choice leaves_request
      (DynamicRoute segments ts pid (handle (UserHandler f))) a s = Ok s' ∧
    store_wf s' ∧ pools_clean s' ∧ pools s' !! pid = Some P' ∧ New_num P' = New_num P.
Proof.
  intros Hwf Hclean HP Hsegs Hcap.
  destruct (Pool_Get_clean _ _ _ Hwf Hclean HP)
    as (l & s1 & c & HG & Hc & Hps & Hcapc & Hpool & Hcmp & Hwf1 & Hclean1 & Hnf1 & P1 & HP1 & Hsame).
  destruct (match_returns (compareFunc s1) segments Hsegs (URL_Path a.1) [] (New_num P) ts)
    as (matched & ps & Hmatch); [simpl; lia |].
  set (s2 := set_heap (<[l := set_params ps c]> (heap s1)) s1).
  assert (heap s2 !! l = Some (set_params ps c)) as Hl2.
  { simpl. apply list_lookup_insert_eq. by eapply lookup_lt_Some. }
  assert (store_wf s2) as Hwf2 by (by eapply update_wf).
  destruct (update_clean s1 l (set_params ps c) Hnf1 Hclean1) as [Hclean2 Hnf2].
  fold s2 in Hclean2, Hnf2.
  assert (∀ r c', heap (wrap l s2 r).2 !! l = Some c' → pool c' = Some pid →
            store_wf (reset l (wrap l s2 r).2 (wrap l s2 r).1).2 ∧
            pools_clean (reset l (wrap l s2 r).2 (wrap l s2 r).1).2) as Hserved.
  { intros r c' Hc' Hpool'. split; [by apply reset_wf, wrap_wf |].
    eapply reset_clean; [exact Hc' | exact Hpool' | | by apply wrap_wf | by apply wrap_clean].
    by apply wrap_not_free. }
  assert (heap (wrap l s2 a.1).2 !! l = Some (set_ReadCloser (Body a.1) (set_params ps c)))
    as Hlw.
  { rewrite (wrap_heap _ _ _ _ Hl2). simpl. apply list_lookup_insert_eq.
    rewrite length_insert. by eapply lookup_lt_Some. }
  assert (∀ s3, store_le s1 s3 → ∃ P', pools s3 !! pid = Some P' ∧ New_num P' = New_num P)
    as Hpool3.
  { intros s3 Hle. destruct (proj2 Hle _ _ HP1) as (P3 & HP3 & Hnum & _).
    exists P3. split; [done |]. destruct Hsame. congruence. }
  assert (store_le s1 s2) as Hle2 by (by eapply update_le).
  unfold attempt. cbn [Match]. rewrite HG, Hc, Hps, Hcapc, Hmatch. cbn [mbind Result_bind].
  fold s2. destruct matched.
  - change (wrap l s2 a.1) with ((wrap l s2 a.1).1, (wrap l s2 a.1).2).
    cbn iota beta.
    assert (∃ P', pools (reset l (wrap l s2 a.1).2 (wrap l s2 a.1).1).2 !! pid = Some P' ∧
                  New_num P' = New_num P) as (P' & HP' & Hnum').
    { apply Hpool3. eapply store_le_trans; [exact Hle2 |].
      eapply store_le_trans; [apply wrap_le | apply reset_le]. }
    destruct (Hserved a.1 _ Hlw Hpool) as [Hwf3 Hclean3].
    exists (reset l (wrap l s2 a.1).2 (wrap l s2 a.1).1).2, P'.
    split; [by destruct (a.2) |]. done.
  - destruct (reset l s2 a.1) as [r3 s3] eqn:Er. cbn iota beta.
    assert (s3 = (reset l s2 a.1).2) as -> by (by rewrite Er).
    destruct (Hpool3 (reset l s2 a.1).2) as (P' & HP' & Hnum').
    { eapply store_le_trans; [exact Hle2 | apply reset_le]. }
    exists (reset l s2 a.1).2, P'. split; [done |].
    split; [by apply reset_wf |]. split; [| done].
    by eapply reset_clean.
Qed.

(** Every sequence of match attempts on such a route returns. *)
Lemma attempts_return segments ts pid f reqs :
  Forall (λ seg, 2 ≤ String.length seg) segments →
  ∀ s P,
    store_wf s → pools_clean s → pools s !! pid = Some P →
    count_params segments ≤ New_num P →
    ∃ s', attempts pool_choice leaves_request
            (DynamicRoute segments ts pid (handle (UserHandler f))) reqs s = Ok s'.
Proof.
  intros Hsegs. induction reqs as [| a reqs IH]; intros s P Hwf Hclean HP Hcap;
    [by eexists |].
  destruct (attempt_returns _ ts _ f a _ _ Hwf Hclean HP Hsegs Hcap)
    as (s1 & P1 & Ha & Hwf1 & Hclean1 & HP1 & Hnum).
  cbn [attempts]. rewrite Ha. cbn [mbind Result_bind].
  apply (IH s1 P1); try done. lia.
Qed.

(** The store such a sequence leaves is again well formed and clean. *)
Lemma attempts_return_clean segments ts pid f reqs :
  Forall (λ seg, 2 ≤ String.length seg) segments →
  ∀ s P,
    store_wf s → pools_clean s → pools s !! pid = Some P →
    count_params segments ≤ New_num P →
    ∃ s' P',
      attempts pool_choice leaves_request
        (DynamicRoute segments ts pid (handle (UserHandler f))) reqs s = Ok s' ∧
      store_wf s' ∧ pools_clean s' ∧ pools s' !! pid = Some P' ∧ New_num P' = New_num P.
Proof.
  intros Hsegs. induction reqs as [| a reqs IH]; intros s P Hwf Hclean HP Hcap;
    [by exists s, P |].
  destruct (attempt_returns _ ts _ f a _ _ Hwf Hclean HP Hsegs Hcap)
    as (s1 & P1 & Ha & Hwf1 & Hclean1 & HP1 & Hnum).
  cbn [attempts]. rewrite Ha. cbn [mbind Result_bind].
  destruct (IH s1 P1) as (s' & P' & ? & ? & ? & ? & ?); try done; [lia |].
  exists s', P'. repeat (split; [done |]). lia.
Qed.

End Totality.

Lemma empty_store_clean : pools_clean empty_store.
Proof. intros pid P H. by destruct (lookup_nil _ _ _ H) || done. Qed.

Lemma add_pool_clean s P : free P = [] → pools_clean s → pools_clean (set_pools (pools s ++ [P]) s).
Proof.
  intros Hfree Hclean pid P0 H0. simpl in H0.
  apply lookup_app_Some in H0 as [H0 | [Hge H0]]; [exact (Hclean pid P0 H0) |].
  destruct (pid - length (pools s)) as [|k]; simpl in H0; [| done].
  injection H0 as <-. rewrite Hfree. split; [constructor |].
  intros l Hl. by apply elem_of_nil in Hl.
Qed.

(** X16.  A dynamic route registered with a pattern that has no empty
    segment never panics: from the store that [Route] leaves, every
    sequence of match attempts, each served or recycled, returns,
    whatever the handlers do as long as they return with the [req.Body]
    they were called with.  In particular the slice of a carrier always
    has room for the parameters of the pattern. *)
Lemma Route_attempts_return pool_choice user_handler path handler s0 rt s1 reqs :
  keeps_Body user_handler →
  store_wf s0 → pools_clean s0 →
  Route path handler s0 = Ok (rt, s1) →
  is_Some (IndexAny (normalize path) ":*") →
  Forall (λ seg, seg ≠ "") (Split (Trim (normalize path) "/") "/") →
  ∃ s', attempts pool_choice user_handler rt reqs s1 = Ok s'.
Proof.
  intros Hk Hwf0 Hclean0 HR [i Hi] Hnonempty.
  pose proof HR as (h & [f ->]%as_handler_Ok & Hcase)%Route_inv. cbn zeta in Hcase.
  destruct Hcase as [(Hnone & _) | (_ & segments & _ & -> & ->)]; [congruence |].
  destruct (Route_capacity _ _ _ _ _ _ _ _ HR) as [Hsegs Hcap].
  assert (Forall (λ seg, 2 ≤ String.length seg) segments) as Hlen.
  { rewrite Hsegs. apply Forall_map. eapply Forall_impl; [exact Hnonempty |].
    intros [|c seg] Hne; [done |]. simpl. lia. }
  rewrite attempts_keeps_Body by done.
  apply (attempts_return pool_choice segments _ _ f reqs Hlen _
           (dynamic_pool (normalize path))).
  - by apply add_pool_wf.
  - by apply add_pool_clean.
  - simpl. rewrite lookup_app_r by lia. by rewrite Nat.sub_diag.
  - exact Hcap.
Qed.

(** * Further properties *)

(** ** Lookup by name *)

(** X1.  [ByName] returns the value of the first parameter with the
    given key, whatever follows it, and the empty string when no
    parameter has that key. *)
Theorem ByName_first_match ps name
    (Hnone : Forall (λ q, Key q ≠ name) ps) :
  ByName ps name = "" ∧
  ∀ p ps', Key p = name → ByName (ps ++ p :: ps') name = Value p.
Proof.
  induction Hnone as [| q ps Hq _ [IH1 IH2]].
  - split; [done |]. intros p ps' <-. simpl. by rewrite String.eqb_refl.
  - assert (String.eqb (Key q) name = false) as Hneq by (by apply String.eqb_neq).
    split.
    + simpl. by rewrite Hneq.
    + intros p ps' Hp. simpl. rewrite Hneq. by apply IH2.
Qed.

(** An instance: the second of two parameters with the same key is
    never returned. *)
Lemma ByName_first_match_witness :
  ByName [{| Key := "a"; Value := "1" |}] "b" = "" ∧
  ByName ([{| Key := "a"; Value := "1" |}] ++
          {| Key := "b"; Value := "2" |} :: [{| Key := "b"; Value := "3" |}]) "b" = "2".
Proof.
  assert (Forall (λ q, Key q ≠ "b") [{| Key := "a"; Value := "1" |}]) as H
    by (repeat constructor; discriminate).
  destruct (ByName_first_match _ "b" H) as [H1 H2].
  split; [exact H1 |].
  exact (H2 {| Key := "b"; Value := "2" |} [{| Key := "b"; Value := "3" |}] eq_refl).
Defined.

(** ** What the matcher binds *)

Lemma SliceTo_SliceFrom s n : String.append (SliceTo s n) (SliceFrom s n) = s.
Proof.
  revert s. induction n as [|n IH]; intros [|c s]; simpl; try done. by rewrite IH.
Qed.

Lemma has_slash_UntilSlash s : has_slash (SliceTo s (UntilSlash s)) = false.
Proof.
  induction s as [|c s IH]; [done |]. simpl.
  destruct (Ascii.eqb c "/") eqn:E; [done |]. simpl. by rewrite E.
Qed.

Lemma named_value_no_slash url : has_slash (Slice url 1 (NamedEnd url)) = false.
Proof.
  unfold Slice, NamedEnd. simpl Nat.sub. rewrite Nat.sub_0_r. apply has_slash_UntilSlash.
Qed.

Lemma append_assoc (a b c : string) :
  String.append (String.append a b) c = String.append a (String.append b c).
Proof. induction a as [|x a IH]; simpl; [done | by rewrite IH]. Qed.

(** Everything a returning call of [match] does to the slice: it
    appends, first the values of named segments, then at most the value
    of one catch-all segment. *)
Lemma match_result cmp segments :
  ∀ url ps cap ts b ps',
    match_ cmp segments url ps cap ts = Ok (b, ps') →
    ∃ named last,
      ps' = ps ++ named ++ last ∧
      Forall (λ p, has_slash (Value p) = false) named ∧
      (last = [] ∨
       b = true ∧ ∃ k v pre, last = [{| Key := k; Value := v |}] ∧ v ≠ "" ∧
                             url = String.append pre v) ∧
      map Key (named ++ last) `prefix_of` param_keys segments ∧
      (b = true → map Key (named ++ last) = param_keys segments) ∧
      (length ps ≤ cap → length ps' ≤ cap).
Proof.
  induction segments as [| seg segments IH]; intros url ps cap ts b ps' HM.
  { injection HM as <- <-. exists [], []. rewrite !app_nil_r.
    repeat split; auto. }
  cbn [match_ param_keys] in *.
  assert (∃ named last : list Param,
            ps = ps ++ named ++ last ∧
            Forall (λ p, has_slash (Value p) = false) named ∧
            (last = [] ∨
             false = true ∧ ∃ k v pre, last = [{| Key := k; Value := v |}] ∧ v ≠ "" ∧
                                       url = String.append pre v) ∧
            map Key (named ++ last) `prefix_of`
              match String.get 1 seg with
              | Some c =>
                  if Ascii.eqb c ":" then SliceFrom seg 2 :: param_keys segments
                  else if Ascii.eqb c "*" then [SliceFrom seg 2]
                  else param_keys segments
              | None => param_keys segments
              end ∧
            (false = true → map Key (named ++ last) =
              match String.get 1 seg with
              | Some c =>
                  if Ascii.eqb c ":" then SliceFrom seg 2 :: param_keys segments
                  else if Ascii.eqb c "*" then [SliceFrom seg 2]
                  else param_keys segments
              | None => param_keys segments
              end) ∧
            (length ps ≤ cap → length ps ≤ cap)) as Hfail.
  { exists [], []. rewrite !app_nil_r. repeat split; auto; [apply prefix_nil | done]. }
  destruct (String.length url =? 0)%nat eqn:Elu; [by injection HM as <- <- |].
  destruct (String.get 1 seg) as [c|]; [| discriminate HM].
  destruct (Ascii.eqb c ":").
  - destruct (cap <? length ps + 1)%nat eqn:Ecap; [discriminate HM |].
    apply Nat.ltb_ge in Ecap.
    destruct (IH _ _ _ _ _ _ HM) as (named & last & -> & Hnamed & Hlast & Hpre & Hkeys & Hlen).
    exists ({| Key := SliceFrom seg 2; Value := Slice url 1 (NamedEnd url) |} :: named), last.
    split; [by rewrite <- !app_assoc |].
    split; [constructor; [apply named_value_no_slash | done] |].
    split.
    { destruct Hlast as [-> | (-> & k & v & pre & -> & Hv & Hurl)]; [by left |].
      right. split; [done |].
      exists k, v, (String.append (SliceTo url (NamedEnd url)) pre).
      split; [done |]. split; [done |].
      by rewrite append_assoc, <- Hurl, SliceTo_SliceFrom. }
    split; [simpl; by apply prefix_cons |].
    split; [intros Hb; simpl; f_equal; by apply Hkeys |].
    intros _. apply Hlen. rewrite length_app. simpl. lia.
  - destruct (Ascii.eqb c "*").
    + destruct (cap <? length ps + 1)%nat eqn:Ecap; [discriminate HM |].
      apply Nat.ltb_ge in Ecap. injection HM as <- <-.
      exists [], [{| Key := SliceFrom seg 2; Value := url |}].
      split; [done |]. split; [constructor |].
      split.
      { right. split; [done |]. exists (SliceFrom seg 2), url, "".
        split; [done |]. split; [| done]. intros ->. discriminate Elu. }
      split; [done |]. split; [done |].
      intros _. rewrite length_app. simpl. lia.
    + destruct (String.length url <? String.length seg)%nat; [by injection HM as <- <- |].
      destruct (cmp _ _); [| by injection HM as <- <-].
      destruct (IH _ _ _ _ _ _ HM) as (named & last & -> & Hnamed & Hlast & Hpre & Hkeys & Hlen).
      exists named, last. split; [done |]. split; [done |].
      split; [| done].
      destruct Hlast as [-> | (-> & k & v & pre & -> & Hv & Hurl)]; [by left |].
      right. split; [done |].
      exists k, v, (String.append (SliceTo url (String.length seg)) pre).
      split; [done |]. split; [done |].
      by rewrite append_assoc, <- Hurl, SliceTo_SliceFrom.
Qed.

(** X2.  When [match] succeeds, the slice is the slice it was given
    followed by one parameter per parameter segment, with the keys of
    the segments in the order of the pattern; when it fails, the slice
    it was given is still a prefix of what it leaves. *)
Theorem match_binds_keys_in_order cmp segments url ps cap ts b ps'
    (HM : match_ cmp segments url ps cap ts = Ok (b, ps')) :
  ∃ new, ps' = ps ++ new ∧
         map Key new `prefix_of` param_keys segments ∧
         (b = true → map Key new = param_keys segments).
Proof.
  destruct (match_result _ _ _ _ _ _ _ _ HM) as (named & last & -> & _ & _ & Hpre & Hkeys & _).
  by exists (named ++ last).
Qed.

(** An instance: the two keys of [/blog/:category/:post]. *)
Lemma match_binds_keys_in_order_witness :
  ∃ new,
    [{| Key := "category"; Value := "go" |}; {| Key := "post"; Value := "routers" |}]
      = [] ++ new ∧
    map Key new `prefix_of` ["category"; "post"] ∧
    (true = true → map Key new = ["category"; "post"]).
Proof.
  exact (match_binds_keys_in_order caseSensitiveCompare ["/blog"; "/:category"; "/:post"]
           "/blog/go/routers" [] 2 false true _ eq_refl).
Defined.

(** X3.  A call of [match] that returns never leaves more parameters in
    the slice than its capacity, provided the slice it was given
    fits. *)
Theorem match_within_capacity cmp segments url ps cap ts b ps'
    (HM : match_ cmp segments url ps cap ts = Ok (b, ps'))
    (Hfit : length ps ≤ cap) :
  length ps ≤ length ps' ∧ length ps' ≤ cap.
Proof.
  destruct (match_result _ _ _ _ _ _ _ _ HM) as (named & last & -> & _ & _ & _ & _ & Hlen).
  split; [rewrite length_app; lia | by apply Hlen].
Qed.

(** An instance: one parameter in a slice of capacity one. *)
Lemma match_within_capacity_witness :
  length ([] : Params) ≤ length [{| Key := "b"; Value := "x" |}] ∧
  length [{| Key := "b"; Value := "x" |}] ≤ 1.
Proof.
  exact (match_within_capacity caseSensitiveCompare ["/a"; "/:b"] "/a/x" [] 1 false true _
           eq_refl (Nat.le_0_l 1)).
Defined.

Lemma at_separator_UntilSlash s : at_separator (SliceFrom s (UntilSlash s)) = true.
Proof.
  induction s as [|c s IH]; [done |]. simpl.
  destruct (Ascii.eqb c "/") eqn:E; simpl; [by rewrite E | done].
Qed.

(** Where the value of a named segment stands in the path. *)
Lemma named_value_in_path url :
  (String.length url =? 0)%nat = false →
  SliceTo url 1 ≠ "" ∧
  at_separator (SliceFrom url (NamedEnd url)) = true ∧
  url = String.append (SliceTo url 1)
          (String.append (Slice url 1 (NamedEnd url)) (SliceFrom url (NamedEnd url))).
Proof.
  destruct url as [|c u]; [done |]. intros _. unfold Slice, NamedEnd. simpl.
  rewrite Nat.sub_0_r, SliceTo_SliceFrom. split; [done |].
  split; [apply at_separator_UntilSlash | done].
Qed.

Lemma append_nonempty (a b : string) : b ≠ "" → String.append a b ≠ "".
Proof. by destruct a. Qed.

(** What is bound on a suffix of the path is bound on the path. *)
Lemma bound_by_suffix url n matched seg p :
  bound_by (SliceFrom url n) matched seg p → bound_by url matched seg p.
Proof.
  unfold bound_by. intros [Hkey H]. split; [done |]. destruct seg.2.
  - destruct H as (Hb & Hv & pre & Hurl). split; [done |]. split; [done |].
    exists (String.append (SliceTo url n) pre).
    by rewrite append_assoc, <- Hurl, SliceTo_SliceFrom.
  - destruct H as (Hs & pre & post & Hpre & Hsep & Hurl). split; [done |].
    exists (String.append (SliceTo url n) pre), post.
    split; [by apply append_nonempty |]. split; [done |].
    by rewrite append_assoc, <- Hurl, SliceTo_SliceFrom.
Qed.

(** A call that fails at once binds nothing. *)
Lemma binds_nothing url (ps : Params) (segs : list (string * bool)) :
  ∃ new, ps = ps ++ new ∧
         Forall2 (bound_by url false) (take (length new) segs) new ∧
         (false = true → length new = length segs).
Proof. exists []. rewrite app_nil_r. split; [done |]. split; [constructor | done]. Qed.

(** X4.  [match] binds one parameter for each parameter segment of the
    pattern, in the order of the segments and under the key of the
    segment, as far as it gets, and for all of them when it succeeds.
    The value bound for a named segment has no slash and stands in the
    path after at least one byte and before a slash or the end of the
    path.  The value bound for a catch-all segment is bound only when
    the match succeeds and is a non-empty suffix of the path; only such
    a value may hold a slash. *)
Theorem match_values cmp segments url ps cap ts b ps'
    (HM : match_ cmp segments url ps cap ts = Ok (b, ps')) :
  ∃ new,
    ps' = ps ++ new ∧
    Forall2 (bound_by url b) (take (length new) (param_segments segments)) new ∧
    (b = true → length new = length (param_segments segments)).
Proof.
  revert url ps cap ts b ps' HM.
  induction segments as [| seg segments IH]; intros url ps cap ts b ps' HM.
  { injection HM as <- <-. exists []. rewrite app_nil_r. repeat split. constructor. }
  cbn [match_ param_segments] in HM |- *.
  destruct (String.length url =? 0)%nat eqn:Elu; [injection HM as <- <-; apply binds_nothing |].
  destruct (String.get 1 seg) as [c|]; [| discriminate HM].
  destruct (Ascii.eqb c ":").
  - destruct (cap <? length ps + 1)%nat; [discriminate HM |].
    destruct (IH _ _ _ _ _ _ HM) as (new & -> & Hnew & Hlen).
    destruct (named_value_in_path url Elu) as (Hpre & Hsep & Hurl).
    exists ({| Key := SliceFrom seg 2; Value := Slice url 1 (NamedEnd url) |} :: new).
    split; [by rewrite <- app_assoc |]. split.
    + cbn [length take]. constructor.
      * split; [done |]. cbn [snd Value]. split; [apply named_value_no_slash |].
        by exists (SliceTo url 1), (SliceFrom url (NamedEnd url)).
      * eapply Forall2_impl; [exact Hnew |]. intros seg0 p. apply bound_by_suffix.
    + intros Hb. cbn [length]. f_equal. by apply Hlen.
  - destruct (Ascii.eqb c "*").
    + destruct (cap <? length ps + 1)%nat; [discriminate HM |].
      injection HM as <- <-.
      exists [{| Key := SliceFrom seg 2; Value := url |}].
      split; [done |]. split; [| done].
      constructor; [| constructor]. split; [done |]. cbn [snd Value].
      split; [done |]. split; [intros ->; discriminate Elu | by exists ""].
    + destruct (String.length url <? String.length seg)%nat;
        [injection HM as <- <-; apply binds_nothing |].
      destruct (cmp _ _); [| injection HM as <- <-; apply binds_nothing].
      destruct (IH _ _ _ _ _ _ HM) as (new & -> & Hnew & Hlen).
      exists new. split; [done |]. split; [| done].
      eapply Forall2_impl; [exact Hnew |]. intros seg0 p. apply bound_by_suffix.
Qed.


(** An instance: [/category/:cid/product/*rest]. *)
Lemma match_values_witness :
  ∃ new,
    [{| Key := "cid"; Value := "5" |}; {| Key := "rest"; Value := "/x/a/bc" |}]
      = [] ++ new ∧
    Forall2 (bound_by "/category/5/product/x/a/bc" true)
      (take (length new) [("cid", false); ("rest", true)]) new ∧
    (true = true → length new = length [("cid", false); ("rest", true)]).
Proof.
  exact (match_values caseSensitiveCompare ["/category"; "/:cid"; "/product"; "/*rest"]
           "/category/5/product/x/a/bc" [] 2 false true _ eq_refl).
Defined.

(** ** Paths built from a pattern *)

Lemma length_append (a b : string) :
  String.length (String.append a b) = String.length a + String.length b.
Proof. induction a as [|x a IH]; simpl; [done | by rewrite IH]. Qed.

Lemma SliceFrom_append a b : SliceFrom (String.append a b) (String.length a) = b.
Proof. induction a as [|x a IH]; simpl; [by destruct b | done]. Qed.

Lemma SliceTo_append a b : SliceTo (String.append a b) (String.length a) = a.
Proof. induction a as [|x a IH]; simpl; [by destruct b | by rewrite IH]. Qed.

Lemma UntilSlash_append v rest :
  has_slash v = false → at_separator rest = true →
  UntilSlash (String.append v rest) = String.length v.
Proof.
  intros Hv Hrest. induction v as [|c v IH]; simpl in *.
  - destruct rest as [|d rest]; [done |]. simpl in *. by rewrite Hrest.
  - apply orb_false_elim in Hv as [Hc Hv]. rewrite Hc. by rewrite IH.
Qed.

Lemma get_1_length seg c : String.get 1 seg = Some c → 2 ≤ String.length seg.
Proof. destruct seg as [|x [|y seg]]; simpl; try done. lia. Qed.

(** X5.  A path built from the segments of a pattern by substituting
    values is matched under the default comparison, and the matcher
    returns exactly those values under the keys of the pattern, in
    order.  The path is [render]: a literal segment stands for itself, a
    named segment for a slash and its value, a catch-all segment for its
    value, and a final slash is added when the pattern requires one.
    The conditions are those of [substitutable] and room in the slice:
    every segment up to a catch-all segment has at least two bytes;
    there is exactly one value for each parameter segment; the value of
    a named segment has no slash (it may be empty) and what follows it
    in the built path is empty or starts with a slash, so that the value
    of a catch-all segment that comes right after it starts with a
    slash; the value of a catch-all segment is not empty. *)
Theorem render_is_matched segments :
  ∀ vals ps cap ts
    (Hvals : substitutable segments vals ts = true)
    (Hcap : length ps + length vals ≤ cap),
    match_ caseSensitiveCompare segments (render segments vals ts) ps cap ts
      = Ok (true, ps ++ bind_params (param_keys segments) vals).
Proof.
  induction segments as [| seg segments IH]; intros vals ps cap ts Hvals Hcap.
  { destruct vals; [| discriminate Hvals]. simpl. rewrite app_nil_r. by destruct ts. }
  cbn [substitutable render param_keys match_] in *.
  destruct (String.get 1 seg) as [c|] eqn:Eget; [| discriminate Hvals].
  pose proof (get_1_length _ _ Eget) as Hlen.
  destruct (Ascii.eqb c ":") eqn:Enamed.
  - destruct vals as [|v vals]; [discriminate Hvals |].
    apply andb_prop in Hvals as [[Hv Hsep]%andb_prop Hrest].
    apply negb_true_iff in Hv. simpl in Hcap.
    cbn [String.length Nat.eqb].
    replace (cap <? length ps + 1)%nat with false by (symmetry; apply Nat.ltb_ge; lia).
    assert (NamedEnd (String "/" (String.append v (render segments vals ts)))
            = S (String.length v)) as ->.
    { unfold NamedEnd. simpl. by rewrite UntilSlash_append. }
    assert (Slice (String "/" (String.append v (render segments vals ts))) 1
              (S (String.length v)) = v) as ->.
    { unfold Slice. simpl. rewrite Nat.sub_0_r. apply SliceTo_append. }
    cbn [SliceFrom]. rewrite SliceFrom_append.
    rewrite IH; [| done | rewrite length_app; simpl; lia].
    by rewrite <- app_assoc.
  - destruct (Ascii.eqb c "*") eqn:Ecatch.
    + destruct vals as [|v [|w vals]]; try discriminate Hvals.
      apply negb_true_iff, String.eqb_neq in Hvals. simpl in Hcap.
      destruct v as [|x v]; [done |]. cbn [String.length Nat.eqb].
      by replace (cap <? length ps + 1)%nat with false by (symmetry; apply Nat.ltb_ge; lia).
    + assert (match vals with
              | [] => String.append seg (render segments vals ts)
              | _ :: _ => String.append seg (render segments vals ts)
              end = String.append seg (render segments vals ts)) as -> by (by destruct vals).
      rewrite length_append.
      replace (String.length seg + String.length (render segments vals ts) =? 0)%nat
        with false by (symmetry; apply Nat.eqb_neq; lia).
      replace (String.length seg + String.length (render segments vals ts)
               <? String.length seg)%nat with false by (symmetry; apply Nat.ltb_ge; lia).
      rewrite SliceTo_append, SliceFrom_append. unfold caseSensitiveCompare at 1.
      rewrite String.eqb_refl. by apply IH.
Qed.

(** An instance: [/a/:b/c] and the value [dic]. *)
Lemma render_is_matched_witness :
  match_ caseSensitiveCompare ["/a"; "/:b"; "/c"] "/a/dic/c" [] 1 false
    = Ok (true, [] ++ bind_params ["b"] ["dic"]).
Proof.
  exact (render_is_matched ["/a"; "/:b"; "/c"] ["dic"] [] 1 false eq_refl
           (le_n 1)).
Defined.

(** ** The trailing slash *)

Lemma LastByte_SliceFrom url n c :
  LastByte (SliceFrom url n) = Some c → LastByte url = Some c.
Proof.
  revert url. induction n as [|n IH]; intros [|x url]; simpl; try done.
  intros H. specialize (IH _ H). destruct url; [discriminate IH | exact IH].
Qed.

(** With the trailing-slash flag set and no catch-all segment, [match]
    succeeds only on a path whose last byte is a slash. *)
Lemma match_trailing_slash cmp segments :
  Forall (λ seg, String.get 1 seg ≠ Some "*"%char) segments →
  ∀ url ps cap ps',
    match_ cmp segments url ps cap true = Ok (true, ps') →
    LastByte url = Some "/"%char.
Proof.
  induction 1 as [| seg segments Hseg _ IH]; intros url ps cap ps' HM.
  { simpl in HM. injection HM as HM _.
    destruct (String.eqb_spec url "/") as [-> |]; [done | discriminate HM]. }
  cbn [match_] in HM.
  destruct (String.length url =? 0)%nat; [discriminate HM |].
  destruct (String.get 1 seg) as [c|]; [| discriminate HM].
  destruct (Ascii.eqb c ":").
  - destruct (cap <? length ps + 1)%nat; [discriminate HM |].
    eapply LastByte_SliceFrom, IH, HM.
  - destruct (Ascii.eqb_spec c "*") as [-> |]; [done |].
    destruct (String.length url <? String.length seg)%nat; [discriminate HM |].
    destruct (cmp _ _); [| discriminate HM].
    eapply LastByte_SliceFrom, IH, HM.
Qed.

Lemma Count_TrimLeft s c : c ≠ "/"%char → Count (TrimLeft s "/") c = Count s c.
Proof.
  intros Hc. induction s as [|d s IH]; [done |]. cbn [TrimLeft]. rewrite ContainsByte_slash.
  destruct (Ascii.eqb_spec d "/") as [-> |]; [| done].
  rewrite IH. cbn [Count]. by destruct (Ascii.eqb_spec "/" c).
Qed.

Lemma Count_TrimRight s c : c ≠ "/"%char → Count (TrimRight s "/") c = Count s c.
Proof.
  intros Hc. induction s as [|d s IH]; [done |]. cbn [TrimRight Count]. rewrite <- IH.
  destruct (TrimRight s "/") as [|e r]; [| done]. rewrite ContainsByte_slash.
  destruct (Ascii.eqb_spec d "/") as [-> |]; [| done].
  cbn [Count]. destruct (Ascii.eqb_spec "/" c); [congruence | done].
Qed.

Lemma Count_Split s c :
  c ≠ "/"%char → sum_list (map (λ seg, Count seg c) (Split s "/")) = Count s c.
Proof.
  intros Hc. induction s as [|d s IH]; [done |]. cbn [Split Count].
  destruct (Ascii.eqb_spec d "/") as [-> |].
  - destruct (Ascii.eqb_spec "/" c); [done |]. simpl. exact IH.
  - destruct (Split s "/") as [|x xs]; simpl in *; destruct (Ascii.eqb d c); lia.
Qed.

Lemma sum_list_zero (f : string → nat) xs x :
  sum_list (map f xs) = 0 → x ∈ xs → f x = 0.
Proof.
  induction xs as [|y xs IH]; intros Hsum Hin; [by apply elem_of_nil in Hin |].
  simpl in Hsum. apply elem_of_cons in Hin as [-> | Hin]; [lia | apply IH; [lia | done]].
Qed.

(** A pattern without the byte [*] has no catch-all segment. *)
Lemma no_star_no_catch_all p :
  Count p "*" = 0 →
  Forall (λ seg, String.get 1 seg ≠ Some "*"%char)
    (map (String "/") (Split (Trim p "/") "/")).
Proof.
  intros Hp. apply Forall_map, Forall_forall. intros seg Hseg.
  assert (Count seg "*" = 0) as Hzero.
  { apply (sum_list_zero (λ seg, Count seg "*") (Split (Trim p "/") "/")); [| done].
    rewrite Count_Split by done. unfold Trim.
    by rewrite Count_TrimRight, Count_TrimLeft. }
  destruct seg as [|c seg]; [done |]. cbn [String.get Nat.eqb Nat.pred]. simpl.
  intros [= ->]. simpl in Hzero. lia.
Qed.

Section TrailingSlash.

Variable pool_choice : list loc → option nat.

(** X6.  A dynamic route whose pattern ends in a slash and has no
    catch-all segment returns a handler only for request paths that end
    in a slash. *)
Theorem trailing_slash_is_required path handler s0 rt s1 s r h r' s'
    (HR : Route path handler s0 = Ok (rt, s1))
    (Hdyn : is_Some (IndexAny (normalize path) ":*"))
    (Hts : LastByte (normalize path) = Some "/"%char)
    (Hstar : Count (normalize path) "*" = 0)
    (HM : Match pool_choice rt s r = Ok (Some h, r', s')) :
  LastByte (URL_Path r) = Some "/"%char.
Proof.
  apply Route_inv in HR as (h0 & _ & HR). cbn zeta in HR.
  destruct Hdyn as [i Hi].
  destruct HR as [(Hnone & _) | (_ & segments & Hprep & -> & _)]; [congruence |].
  pose proof (prepare_segments_spec (normalize path) (Split (Trim (normalize path) "/") "/")
                0 (length (Split (Trim (normalize path) "/") "/"))) as Hspec.
  rewrite Hprep in Hspec. destruct Hspec as [-> _].
  destruct (Match_dynamic_inv _ _ _ _ _ _ _ _ _ _ HM)
    as (l & s2 & c & matched & ps & _ & _ & Hmatch & Hres).
  cbn zeta in Hres. destruct Hres as [(-> & _) | (_ & [=] & _)].
  unfold trailing_slash in Hmatch. rewrite Hts in Hmatch. simpl Ascii.eqb in Hmatch.
  eapply match_trailing_slash; [by apply no_star_no_catch_all | exact Hmatch].
Qed.

End TrailingSlash.

(** An instance: the route [/users/:id/:bid/] and the path
    [/users/a/b/]. *)
Lemma trailing_slash_is_required_witness :
  LastByte "/users/a/b/" = Some "/"%char.
Proof.
  eapply (trailing_slash_is_required lifo "/users/:id/:bid/" (OfHandlerFunc 0) empty_store
            _ _ (set_pools [dynamic_pool "/users/:id/:bid/"] empty_store)
            (get "/users/a/b/" NilBody)).
  - reflexivity.
  - by eexists.
  - reflexivity.
  - reflexivity.
  - reflexivity.
Defined.

(** ** Leading slashes of a registration string *)

Lemma TrimLeft_idempotent s : TrimLeft (TrimLeft s "/") "/" = TrimLeft s "/".
Proof.
  induction s as [|c s IH]; [done |]. cbn [TrimLeft].
  destruct (ContainsByte "/" c) eqn:E; [exact IH |]. cbn [TrimLeft]. by rewrite E.
Qed.

Lemma normalize_slash path : normalize (String "/" path) = normalize path.
Proof. reflexivity. Qed.

Lemma normalize_idempotent path : normalize (normalize path) = normalize path.
Proof.
  unfold normalize. f_equal.
  change (TrimLeft (String "/" (TrimLeft path "/")) "/")
    with (TrimLeft (TrimLeft path "/") "/").
  apply TrimLeft_idempotent.
Qed.

(** X7.  [Route] does not see the leading slashes of the registration
    string: one more slash in front, or the normalized pattern in its
    place, gives the same router and the same store, or the same
    panic. *)
Theorem Route_ignores_leading_slashes path handler s :
  Route (String "/" path) handler s = Route path handler s ∧
  Route (normalize path) handler s = Route path handler s.
Proof.
  unfold Route. by rewrite normalize_slash, normalize_idempotent.
Qed.

(** ** Laws of the composite dispatcher *)

Section CompositeLaws.

Variable pool_choice : list loc → option nat.

#[local] Abbreviation Match := (Match pool_choice).

Lemma Match_New_app routes routes' :
  ∀ s r, Match (New (New routes :: routes')) s r = Match (New (routes ++ routes')) s r.
Proof.
  induction routes as [| router routes IH]; intros s r.
  - by rewrite Match_New_cons, Match_New_nil.
  - simpl app. rewrite (Match_New_cons _ router (routes ++ routes')).
    rewrite Match_New_cons, (Match_New_cons _ router routes).
    destruct (Match router s r) as [[[[h|] r1] s1]|]; cbn [mbind Result_bind];
      [done | | done].
    rewrite <- IH. by rewrite Match_New_cons.
Qed.

(** X8.  Composition with [New] is flat: a dispatcher over a single
    router behaves as that router, a dispatcher over no router returns
    nil and changes nothing, and a dispatcher nested as the first router
    of another behaves as one dispatcher over all the routers in
    order. *)
Theorem New_is_flat router routes routes' s r :
  Match (New []) s r = Ok (None, r, s) ∧
  Match (New [router]) s r = Match router s r ∧
  Match (New (New routes :: routes')) s r = Match (New (routes ++ routes')) s r.
Proof.
  split; [done |]. split; [| apply Match_New_app].
  rewrite Match_New_cons. by destruct (Match router s r) as [[[[h|] r1] s1]|].
Qed.

End CompositeLaws.

(** ** The comparison override *)

Section Compares.

Variable pool_choice : list loc → option nat.

(** X9.  Around a static route, [ComparesPathWith] decides the match by
    the given comparison alone, applied to the normalized pattern and
    the request path, whatever the package variable held before; and
    when its [Match] returns, the package variable is the case-sensitive
    default, not the function it held before the call. *)
Theorem ComparesPathWith_static path handler s0 rt s1 cmp s r
    (Hstatic : IndexAny (normalize path) ":*" = None)
    (HR : Route path handler s0 = Ok (rt, s1)) :
  (matches pool_choice (ComparesPathWith rt cmp) s r ↔
     cmp (normalize path) (URL_Path r) = true) ∧
  ∃ res r' s',
    Match pool_choice (ComparesPathWith rt cmp) s r = Ok (res, r', s') ∧
    compareFunc s' = caseSensitiveCompare.
Proof.
  apply Route_inv in HR as (h & _ & [(_ & -> & _) | ([i Hi] & _)]); [| congruence].
  unfold matches. cbn [Match]. cbn [compareFunc set_compareFunc].
  destruct (cmp (normalize path) (URL_Path r)); cbn.
  - split; [| by eexists _, _, _]. split; [done |]. intros _. by eexists _, _, _.
  - split; [| by eexists _, _, _]. split; [| done]. intros (? & ? & ? & [=]).
Qed.

End Compares.

(** An instance: with [same_length] the route [/users/hello] matches
    [/users/HELLO]. *)
Lemma ComparesPathWith_static_witness :
  matches lifo (ComparesPathWith (StaticRoute users_hello 0 (UserHandler 0)) same_length)
    users_store (get "/users/HELLO" NilBody)
  ↔ same_length (normalize users_hello) "/users/HELLO" = true.
Proof.
  exact (proj1 (ComparesPathWith_static lifo users_hello (OfHandlerFunc 0) empty_store
                  _ _ same_length users_store (get "/users/HELLO" NilBody)
                  eq_refl eq_refl)).
Defined.

(** ** Serving through a route *)

Lemma set_Body_restore l r : set_Body (Body r) (set_Body (CarrierPtr l) r) = r.
Proof. by destruct r. Qed.

Section Serving.

Variable pool_choice : list loc → option nat.

(** X10.  Serving a request through a dynamic route that matches it,
    around a user's handler that returns with the [req.Body] it was
    called with, releases what the match took: the request comes back as
    the handler left it and with the body it arrived with (as it
    arrived, if the handler does nothing), the carrier that was attached
    is truncated to no parameters and is free in the route's pool again,
    and no pool has fewer free carriers than before. *)
Theorem ServeHTTP_releases_carrier user_handler path handler s0 rt s1 s r h r1 s2
    (Hkeeps : keeps_Body user_handler)
    (HR : Route path handler s0 = Ok (rt, s1))
    (Hdyn : is_Some (IndexAny (normalize path) ":*"))
    (Hwf : store_wf s)
    (HM : Match pool_choice rt s r = Ok (Some h, r1, s2)) :
  ∃ l f s',
    Body r1 = CarrierPtr l ∧ h = handle (UserHandler f) ∧
    Router_ServeHTTP pool_choice user_handler rt s r
      = Ok (set_Body (Body r) (user_handler f s2 r1).1, s') ∧
    params <$> heap s' !! l = Some [] ∧
    (∃ segments ts pid P,
       rt = DynamicRoute segments ts pid h ∧ pools s' !! pid = Some P ∧ l ∈ free P) ∧
    ∀ pid, Pool_size pid s ≤ Pool_size pid s'.
Proof.
  apply Route_inv in HR as (h0 & [f ->]%as_handler_Ok & HR). cbn zeta in HR.
  destruct Hdyn as [i Hi].
  destruct HR as [(Hnone & _) | (_ & segments & _ & -> & _)]; [congruence |].
  destruct (Match_dynamic_Some _ _ _ _ _ _ _ _ _ _ Hwf HM)
    as (l & c & P & -> & -> & Hl & Hpool & HRC & HP & _ & Hwf2 & Hsz & Hoth).
  destruct (reset_puts_back l s2 (set_Body (CarrierPtr l) r) c _ Hl Hpool Hwf2)
    as (Hsize & P' & HP' & Hin).
  exists l, f, (reset l s2 (set_Body (CarrierPtr l) r)).2.
  split; [done |]. split; [done |]. split.
  { unfold Router_ServeHTTP. rewrite HM. cbn [mbind Result_bind].
    rewrite handle_keeps_Body by done.
    rewrite !(reset_pooled _ _ _ _ _ Hl Hpool). cbn [snd]. by rewrite HRC. }
  split.
  { rewrite (reset_pooled _ _ _ _ _ Hl Hpool). cbn [snd]. unfold Pool_Put. cbn [heap set_pools
      set_heap]. rewrite list_lookup_insert_eq by (by eapply lookup_lt_Some). done. }
  split; [eexists _, _, _, _; split; [reflexivity |]; split; [exact HP' | exact Hin] |].
  intros pid. destruct (decide (pid = length (pools s0))) as [-> | Hne].
  - rewrite Hsize. exact Hsz.
  - rewrite (Hoth _ Hne). apply reset_size_le.
Qed.

(** X11.  Serving a request through a static route that matches it does
    not release anything: the user's handler is called with the shared
    carrier attached and the route runs nothing after it.  With a handler
    that does nothing the request leaves with the shared carrier still
    attached, [Pattern] keeps returning the normalized pattern, no pool
    is touched, and it takes a [Recycle] to give the request its body
    back. *)
Theorem static_ServeHTTP_stays_attached path handler s0 rt s1 s r
    (HR : Route path handler s0 = Ok (rt, s1))
    (Hstatic : IndexAny (normalize path) ":*" = None)
    (Hle : store_le s1 s)
    (Hcmp : compareFunc s = caseSensitiveCompare)
    (Hpath : URL_Path r = normalize path) :
  ∃ l s',
    Router_ServeHTTP pool_choice leaves_request rt s r = Ok (set_Body (CarrierPtr l) r, s') ∧
    Pattern s' (set_Body (CarrierPtr l) r) = normalize path ∧
    pools s' = pools s ∧
    Recycle s' (set_Body (CarrierPtr l) r) = (r, s') ∧
    ∀ user_handler, ∃ f,
      Router_ServeHTTP pool_choice user_handler rt s r
        = Ok (user_handler f s' (set_Body (CarrierPtr l) r)).
Proof.
  apply Route_inv in HR as (h0 & [f ->]%as_handler_Ok & HR). cbn zeta in HR.
  destruct HR as [(_ & -> & ->) | ([i Hi] & _)]; [| congruence].
  destruct (proj1 Hle (length (heap s0)) (static_carrier (normalize path)))
    as (c & Hc & Hpat & Hpool & _); [apply alloc_lookup_new |].
  simpl in Hpat, Hpool.
  set (l := length (heap s0)) in *.
  assert (heap (wrap l s r).2 !! l = Some (set_ReadCloser (Body r) c)) as Hl.
  { rewrite (wrap_heap _ _ _ _ Hc). simpl. apply list_lookup_insert_eq.
    by eapply lookup_lt_Some. }
  exists l, (wrap l s r).2. split.
  { unfold Router_ServeHTTP. rewrite Match_static, Hcmp, Hpath.
    unfold caseSensitiveCompare. by rewrite String.eqb_refl. }
  split; [unfold Pattern; cbn [parameterized Body set_Body]; rewrite Hl; simpl; congruence |].
  split; [done |]. split.
  { unfold Recycle. cbn [parameterized Body set_Body].
    rewrite (reset_unpooled _ _ _ _ Hl); [| simpl; congruence].
    simpl ReadCloser. by rewrite set_Body_restore. }
  intros user_handler. exists f.
  unfold Router_ServeHTTP. rewrite Match_static, Hcmp, Hpath.
  unfold caseSensitiveCompare. by rewrite String.eqb_refl.
Qed.

End Serving.

(** An instance: the route [/a/:b] serves the request for [/a/x]. *)
Lemma ServeHTTP_releases_carrier_witness :
  ∃ l f s',
    Body a_x_attached = CarrierPtr l ∧ handle (UserHandler 0) = handle (UserHandler f) ∧
    Router_ServeHTTP lifo leaves_request a_b_router a_b_store a_x_request
      = Ok (a_x_request, s') ∧
    params <$> heap s' !! l = Some [] ∧
    (∃ segments ts pid P,
       a_b_router = DynamicRoute segments ts pid (handle (UserHandler 0)) ∧
       pools s' !! pid = Some P ∧ l ∈ free P) ∧
    ∀ pid, Pool_size pid a_b_store ≤ Pool_size pid s'.
Proof.
  exact (ServeHTTP_releases_carrier lifo leaves_request "/a/:b" (OfHandlerFunc 0) empty_store
           a_b_router a_b_store a_b_store a_x_request (handle (UserHandler 0))
           a_x_attached a_x_store leaves_request_keeps_Body eq_refl (mk_is_Some _ _ eq_refl)
           a_b_store_wf eq_refl).
Defined.

(** An instance: the route [/users/hello] serves a request with a
    body. *)
Lemma static_ServeHTTP_stays_attached_witness :
  ∃ l s',
    Router_ServeHTTP lifo leaves_request (StaticRoute users_hello 0 (UserHandler 0)) users_store
      (get users_hello (HostBody 1))
      = Ok (set_Body (CarrierPtr l) (get users_hello (HostBody 1)), s') ∧
    Pattern s' (set_Body (CarrierPtr l) (get users_hello (HostBody 1)))
      = normalize users_hello ∧
    pools s' = pools users_store ∧
    Recycle s' (set_Body (CarrierPtr l) (get users_hello (HostBody 1)))
      = (get users_hello (HostBody 1), s') ∧
    ∀ user_handler, ∃ f,
      Router_ServeHTTP lifo user_handler (StaticRoute users_hello 0 (UserHandler 0)) users_store
        (get users_hello (HostBody 1))
        = Ok (user_handler f s' (set_Body (CarrierPtr l) (get users_hello (HostBody 1)))).
Proof.
  exact (static_ServeHTTP_stays_attached lifo users_hello (OfHandlerFunc 0) empty_store
           (StaticRoute users_hello 0 (UserHandler 0)) users_store users_store
           (get users_hello (HostBody 1))
           eq_refl eq_refl (store_le_refl _) eq_refl eq_refl).
Defined.

(** ** The parameters of a matched request *)

Section MatchedParameters.

Variable pool_choice : list loc → option nat.

(** X12.  After a dynamic route matched a request, [Parameters] holds
    one parameter per parameter segment of the pattern, under the names
    of the pattern and in its order, and never more than the capacity
    that [Route] computed for the pool.  The store is one in which the
    free carriers are truncated, as [reset] leaves them. *)
Theorem Parameters_follow_pattern path handler s0 rt s1 s r h r' s'
    (HR : Route path handler s0 = Ok (rt, s1))
    (Hdyn : is_Some (IndexAny (normalize path) ":*"))
    (Hle : store_le s1 s) (Hwf : store_wf s) (Hclean : pools_clean s)
    (HM : Match pool_choice rt s r = Ok (Some h, r', s')) :
  map Key (Parameters s' r') = pattern_keys path ∧
  length (Parameters s' r') ≤ Count (normalize path) ":" + Count (normalize path) "*".
Proof.
  pose proof HR as (h0 & _ & Hcase)%Route_inv. cbn zeta in Hcase.
  destruct Hdyn as [i Hi].
  destruct Hcase as [(Hnone & _) | (_ & segments & _ & -> & ->)]; [congruence |].
  destruct (Route_capacity _ _ _ _ _ _ _ _ HR) as [Hsegs _].
  destruct (proj2 Hle (length (pools s0)) (dynamic_pool (normalize path)))
    as (P & HP & Hnum & _).
  { simpl. rewrite lookup_app_r by lia. by rewrite Nat.sub_diag. }
  cbn [New_num dynamic_pool] in Hnum.
  destruct (Pool_Get_clean pool_choice _ _ _ Hwf Hclean HP)
    as (l & s2 & c & HG & Hc & Hps & Hcap & _).
  destruct (Match_dynamic_inv _ _ _ _ _ _ _ _ _ _ HM)
    as (l' & s2' & c' & matched & ps & HG' & Hc' & Hmatch & Hres).
  assert (l' = l ∧ s2' = s2) as [-> ->] by (split; congruence).
  assert (c' = c) as -> by congruence.
  cbn zeta in Hres. destruct Hres as [(-> & _ & E) | (_ & [=] & _)].
  rewrite Hps, Hcap in Hmatch.
  destruct (match_result _ _ _ _ _ _ _ _ Hmatch)
    as (named & last & Hnew & _ & _ & _ & Hkeys & Hlen).
  assert (Parameters s' r' = ps) as ->.
  { unfold wrap in E. injection E as -> ->. unfold Parameters. simpl.
    rewrite list_lookup_alter, list_lookup_insert_eq by (by eapply lookup_lt_Some).
    by rewrite decide_True. }
  split.
  - rewrite Hnew. simpl. rewrite (Hkeys eq_refl). unfold pattern_keys. by rewrite Hsegs.
  - rewrite Hnum. apply Hlen. simpl. lia.
Qed.

End MatchedParameters.

(** An instance: the route [/a/:b] and the path [/a/x]. *)
Lemma Parameters_follow_pattern_witness :
  map Key (Parameters a_x_store a_x_attached) = pattern_keys "/a/:b" ∧
  length (Parameters a_x_store a_x_attached)
    ≤ Count (normalize "/a/:b") ":" + Count (normalize "/a/:b") "*".
Proof.
  exact (Parameters_follow_pattern lifo "/a/:b" (OfHandlerFunc 0) empty_store
           a_b_router a_b_store a_b_store a_x_request (handle (UserHandler 0))
           a_x_attached a_x_store eq_refl (mk_is_Some _ _ eq_refl)
           (store_le_refl _) a_b_store_wf
           (add_pool_clean empty_store (dynamic_pool "/a/:b") eq_refl empty_store_clean)
           eq_refl).
Defined.

(** ** Carriers of requests in flight *)

Lemma wrap_lookup_other l l0 s r : l0 ≠ l → heap (wrap l s r).2 !! l0 = heap s !! l0.
Proof. intros Hne. unfold wrap. simpl. by apply list_lookup_alter_ne. Qed.

Lemma reset_lookup_other l l0 s r : l0 ≠ l → heap (reset l s r).2 !! l0 = heap s !! l0.
Proof.
  intros Hne. unfold reset. destruct (heap s !! l) as [c|]; [| done].
  destruct (pool c); [| done]. simpl. unfold Pool_Put. simpl.
  by apply list_lookup_insert_ne.
Qed.

Lemma wrap_heap_length l s r : length (heap (wrap l s r).2) = length (heap s).
Proof. unfold wrap. simpl. apply length_alter. Qed.

Lemma reset_heap_length l s r : length (heap (reset l s r).2) = length (heap s).
Proof.
  unfold reset. destruct (heap s !! l) as [c|]; [| done].
  destruct (pool c); [| done]. simpl. unfold Pool_Put. simpl. apply length_insert.
Qed.

Section InFlight.

Variable pool_choice : list loc → option nat.

(** X13.  While a matched request is neither served nor recycled, its
    carrier belongs to it alone: a later match attempt of any dynamic
    route on another request, successful or not, leaves the first
    request's parameters and pattern as they were, and when it succeeds
    it attaches a different carrier.  The store is one in which the free
    carriers are distinct and truncated, as [reset] leaves them. *)
Theorem carrier_in_flight_is_exclusive
    segments ts pid wrapped segments2 ts2 pid2 wrapped2
    s r1 h1 r1' s' r2 res r2' s''
    (Hwf : store_wf s) (Hclean : pools_clean s)
    (HM1 : Match pool_choice (DynamicRoute segments ts pid wrapped) s r1
             = Ok (Some h1, r1', s'))
    (HM2 : Match pool_choice (DynamicRoute segments2 ts2 pid2 wrapped2) s' r2
             = Ok (res, r2', s'')) :
  Parameters s'' r1' = Parameters s' r1' ∧
  Pattern s'' r1' = Pattern s' r1' ∧
  (is_Some res → Body r2' ≠ Body r1').
Proof.
  destruct (Match_dynamic_inv _ _ _ _ _ _ _ _ _ _ HM1)
    as (l1 & s1 & c1 & matched & ps & HG & Hc1 & _ & Hres).
  destruct (Pool_Get_inv _ _ _ _ _ HG) as (P & HP & _).
  destruct (Pool_Get_clean pool_choice _ _ _ Hwf Hclean HP)
    as (l1' & s1' & c1' & HG' & _ & _ & _ & _ & _ & Hwf1 & _ & Hnf1 & _).
  assert (l1' = l1 ∧ s1' = s1) as [-> ->] by (split; congruence).
  cbn zeta in Hres. destruct Hres as [(_ & _ & E) | (_ & [=] & _)].
  set (s2 := set_heap (<[l1 := set_params ps c1]> (heap s1)) s1) in *.
  assert (r1' = set_Body (CarrierPtr l1) r1 ∧ s' = (wrap l1 s2 r1).2) as [-> ->].
  { unfold wrap in E. by injection E as -> ->. }
  assert (not_free l1 (wrap l1 s2 r1).2) as Hnf by exact Hnf1.
  assert (l1 < length (heap (wrap l1 s2 r1).2)) as Hlt.
  { rewrite wrap_heap_length. simpl. rewrite length_insert. by eapply lookup_lt_Some. }
  destruct (Match_dynamic_inv _ _ _ _ _ _ _ _ _ _ HM2)
    as (l2 & s3 & c2 & matched2 & ps2 & HG2 & Hc2 & _ & Hres2).
  assert (l1 ≠ l2 ∧ heap s3 !! l1 = heap (wrap l1 s2 r1).2 !! l1) as [Hne Hsame].
  { destruct (Pool_Get_inv _ _ _ _ _ HG2) as (P2 & HP2 & [Hnew | (i & Hi & ->)]).
    - assert (l2 = (Pool_New pid2 P2 (wrap l1 s2 r1).2).1 ∧
              s3 = (Pool_New pid2 P2 (wrap l1 s2 r1).2).2) as [-> ->]
        by (by rewrite <- Hnew).
      unfold Pool_New, alloc. cbn [fst snd heap set_heap]. split; [lia |].
      by rewrite lookup_app_l.
    - split; [| done]. intros <-. apply (Hnf pid2 P2 HP2).
      by eapply list_elem_of_lookup_2. }
  set (s4 := set_heap (<[l2 := set_params ps2 c2]> (heap s3)) s3) in *.
  assert (heap s4 !! l1 = heap (wrap l1 s2 r1).2 !! l1) as Hsame4.
  { simpl. by rewrite list_lookup_insert_ne. }
  assert (heap s'' !! l1 = heap (wrap l1 s2 r1).2 !! l1) as Hfinal.
  { cbn zeta in Hres2. destruct Hres2 as [(_ & _ & E2) | (_ & _ & E2)].
    - assert (s'' = (wrap l2 s4 r2).2) as -> by (by rewrite <- E2).
      by rewrite wrap_lookup_other.
    - assert (s'' = (reset l2 s4 r2).2) as -> by (by rewrite <- E2).
      by rewrite reset_lookup_other. }
  unfold Parameters, Pattern. cbn [parameterized Body set_Body]. rewrite Hfinal.
  split; [done |]. split; [done |].
  intros [h2 ->]. cbn zeta in Hres2. destruct Hres2 as [(_ & _ & E2) | (_ & [=] & _)].
  assert (r2' = set_Body (CarrierPtr l2) r2) as ->.
  { unfold wrap in E2. by injection E2 as -> _. }
  simpl. congruence.
Qed.

End InFlight.

(** An instance: while the request for [/a/x] is in flight, the route
    [/a/:b] matches a request for [/a/y]. *)
Lemma carrier_in_flight_is_exclusive_witness :
  ∃ r2' s'',
    Match lifo a_b_router a_x_store (get "/a/y" NilBody)
      = Ok (Some (handle (UserHandler 0)), r2', s'') ∧
    Parameters s'' a_x_attached = Parameters a_x_store a_x_attached ∧
    Body r2' ≠ Body a_x_attached.
Proof.
  eexists _, _. split; [reflexivity |].
  destruct (carrier_in_flight_is_exclusive lifo
              ["/a"; "/:b"] false 0 (handle (UserHandler 0))
              ["/a"; "/:b"] false 0 (handle (UserHandler 0))
              a_b_store a_x_request (handle (UserHandler 0)) a_x_attached a_x_store
              (get "/a/y" NilBody) _ _ _ a_b_store_wf
              (add_pool_clean empty_store (dynamic_pool "/a/:b") eq_refl empty_store_clean)
              eq_refl eq_refl) as (H1 & _ & H3).
  split; [exact H1 | apply H3; by eexists].
Defined.

(** ** Allocation in the steady state *)

Lemma Pool_Get_lifo pid s P :
  pools s !! pid = Some P →
  Pool_Get lifo pid s =
    Some match free P with
         | [] => Pool_New pid P s
         | l :: fr => (l, set_pools (<[pid := set_free fr P]> (pools s)) s)
         end.
Proof. intros HP. unfold Pool_Get. rewrite HP. simpl. by destruct (free P). Qed.

(** One attempt with a pool that hands out the carrier put back last:
    the heap grows by one carrier when the pool was empty and not at all
    otherwise, and the pool is not empty afterwards. *)
Lemma attempt_lifo segments ts pid f a s s' :
  store_wf s →
  attempt lifo leaves_request (DynamicRoute segments ts pid (handle (UserHandler f))) a s
    = Ok s' →
  store_wf s' ∧ 1 ≤ Pool_size pid s' ∧
  length (heap s') = length (heap s) + (if (Pool_size pid s =? 0)%nat then 1 else 0).
Proof.
  intros Hwf Ha.
  split; [by destruct (attempt_dynamic _ _ _ _ _ _ _ _ Hwf Ha) |].
  unfold attempt in Ha.
  destruct (Match _ _ _ _) as [[[res r1] s1]|] eqn:HM; [| discriminate Ha].
  cbn [mbind Result_bind] in Ha.
  destruct (Match_dynamic_inv _ _ _ _ _ _ _ _ _ _ HM)
    as (l & s0 & c & matched & ps & HG & Hc & _ & Hres).
  destruct (Pool_Get_inv _ _ _ _ _ HG) as (P & HP & _).
  assert (length (heap s0) = length (heap s) + (if (Pool_size pid s =? 0)%nat then 1 else 0))
    as Hget.
  { rewrite (Pool_Get_lifo _ _ _ HP) in HG. unfold Pool_size. rewrite HP.
    destruct (free P) as [|l0 fr]; unfold Pool_New, alloc in HG; injection HG as <- <-;
      simpl; [by rewrite length_app | lia]. }
  set (s2 := set_heap (<[l := set_params ps c]> (heap s0)) s0) in *.
  assert (length (heap s2) = length (heap s0)) as Hlen2 by (simpl; apply length_insert).
  destruct res as [h|].
  - destruct (Match_dynamic_Some _ _ _ _ _ _ _ _ _ _ Hwf HM)
      as (l' & c' & P' & -> & -> & Hl & Hpool & _ & _ & _ & Hwf1 & _).
    cbn zeta in Hres. destruct Hres as [(_ & _ & E) | (_ & [=] & _)].
    assert (l' = l ∧ s1 = (wrap l s2 a.1).2) as [-> ->].
    { unfold wrap in E. injection E as E1 ->. split; [congruence | done]. }
    assert (s' = (reset l (wrap l s2 a.1).2 (set_Body (CarrierPtr l) a.1)).2) as ->
      by (by destruct (a.2); injection Ha as <-).
    destruct (reset_puts_back l _ (set_Body (CarrierPtr l) a.1) c' pid Hl Hpool Hwf1)
      as [-> _].
    split; [lia |]. by rewrite reset_heap_length, wrap_heap_length, Hlen2.
  - injection Ha as <-.
    destruct (Match_dynamic_None _ _ _ _ _ _ _ _ _ Hwf HM)
      as (l' & _ & P' & _ & HP' & Hin & _).
    cbn zeta in Hres. destruct Hres as [(_ & [=] & _) | (_ & _ & E)].
    assert (s1 = (reset l s2 a.1).2) as -> by (by rewrite <- E).
    split.
    + unfold Pool_size. rewrite HP'. destruct (free P'); [by apply elem_of_nil in Hin |].
      simpl. lia.
    + by rewrite reset_heap_length, Hlen2.
Qed.

(** Over a sequence of attempts at most one carrier is allocated, and
    none once the pool holds a free carrier. *)
Lemma attempts_lifo segments ts pid f reqs :
  ∀ s s',
    store_wf s →
    attempts lifo leaves_request (DynamicRoute segments ts pid (handle (UserHandler f))) reqs s
      = Ok s' →
    length (heap s') ≤ S (length (heap s)) ∧
    (1 ≤ Pool_size pid s → length (heap s') = length (heap s)).
Proof.
  induction reqs as [| a reqs IH]; intros s s' Hwf Hrun.
  { injection Hrun as <-. split; [lia | done]. }
  cbn [attempts] in Hrun.
  destruct (attempt lifo leaves_request _ a s) as [s1|] eqn:Ea; [| discriminate Hrun].
  cbn [mbind Result_bind] in Hrun.
  destruct (attempt_lifo _ _ _ _ _ _ _ Hwf Ea) as (Hwf1 & Hsize1 & Hlen1).
  destruct (IH _ _ Hwf1 Hrun) as [_ Hsteady]. specialize (Hsteady Hsize1).
  rewrite Hsteady, Hlen1.
  destruct (Pool_size pid s =? 0)%nat eqn:E; [apply Nat.eqb_eq in E | apply Nat.eqb_neq in E];
    split; lia.
Qed.

(** X14.  With a pool that hands out the carrier that was put back last
    and handlers that return with the [req.Body] they were called with,
    a dynamic route whose pattern has no empty segment allocates one
    carrier, in the first match attempt on the store that [Route]
    leaves, and none in any sequence of attempts after it, each served
    or recycled; all these attempts return. *)
Theorem steady_state_allocates_nothing user_handler path handler s0 rt s1 a reqs
    (Hkeeps : keeps_Body user_handler)
    (Hwf0 : store_wf s0) (Hclean0 : pools_clean s0)
    (HR : Route path handler s0 = Ok (rt, s1))
    (Hdyn : is_Some (IndexAny (normalize path) ":*"))
    (Hnonempty : Forall (λ seg, seg ≠ "") (Split (Trim (normalize path) "/") "/")) :
  ∃ s' s'',
    attempt lifo user_handler rt a s1 = Ok s' ∧
    attempts lifo user_handler rt reqs s' = Ok s'' ∧
    length (heap s') = S (length (heap s1)) ∧
    length (heap s'') = length (heap s').
Proof.
  destruct Hdyn as [i Hi].
  pose proof HR as (h & [f ->]%as_handler_Ok & Hcase)%Route_inv. cbn zeta in Hcase.
  destruct Hcase as [(Hnone & _) | (_ & segments & _ & -> & ->)]; [congruence |].
  destruct (Route_capacity _ _ _ _ _ _ _ _ HR) as [Hsegs Hcap].
  assert (Forall (λ seg, 2 ≤ String.length seg) segments) as Hlen.
  { rewrite Hsegs. apply Forall_map. eapply Forall_impl; [exact Hnonempty |].
    intros [|c seg] Hne; [done |]. simpl. lia. }
  set (s1 := set_pools (pools s0 ++ [dynamic_pool (normalize path)]) s0) in *.
  set (pid := length (pools s0)) in *.
  assert (store_wf s1) as Hwf1 by (by apply add_pool_wf).
  assert (pools_clean s1) as Hclean1 by (by apply add_pool_clean).
  assert (pools s1 !! pid = Some (dynamic_pool (normalize path))) as HP.
  { unfold s1, pid. simpl. rewrite lookup_app_r by lia. by rewrite Nat.sub_diag. }
  assert (Pool_size pid s1 = 0) as Hempty by (unfold Pool_size; by rewrite HP).
  rewrite attempt_keeps_Body by done.
  destruct (attempt_returns lifo segments (trailing_slash (normalize path)) _ f a _ _
              Hwf1 Hclean1 HP Hlen Hcap)
    as (s' & P' & Ha & Hwf' & Hclean' & HP' & Hnum').
  destruct (attempts_return_clean lifo segments (trailing_slash (normalize path)) pid f reqs
              Hlen s' P')
    as (s'' & _ & Hrun & _); [done | done | done | rewrite Hnum'; exact Hcap |].
  destruct (attempt_lifo _ _ _ _ _ _ _ Hwf1 Ha) as (_ & Hsize' & Hlen').
  rewrite Hempty in Hlen'. cbn [Nat.eqb] in Hlen'.
  exists s', s''. split; [done |].
  split; [by rewrite attempts_keeps_Body |].
  split; [lia |].
  by apply (attempts_lifo _ _ _ _ _ _ _ Hwf' Hrun).
Qed.

(** An instance: the route [/a/:b] and three attempts leave one
    carrier. *)
Lemma steady_state_allocates_nothing_witness :
  ∃ s' s'',
    attempt lifo leaves_request a_b_router (get "/a/x" (HostBody 1), Served) a_b_store
      = Ok s' ∧
    attempts lifo leaves_request a_b_router
      [(get "/x" NilBody, Served); (get "/a/y" NilBody, Recycled)] s' = Ok s'' ∧
    length (heap s') = S (length (heap a_b_store)) ∧
    length (heap s'') = length (heap s').
Proof.
  apply (steady_state_allocates_nothing leaves_request "/a/:b" (OfHandlerFunc 0) empty_store
           a_b_router a_b_store (get "/a/x" (HostBody 1), Served)
           [(get "/x" NilBody, Served); (get "/a/y" NilBody, Recycled)]
           leaves_request_keeps_Body empty_store_wf empty_store_clean eq_refl
           (mk_is_Some _ _ eq_refl)).
  repeat constructor; discriminate.
Defined.

(** An instance: the pattern [/a/:], whose marker has no name. *)
Lemma Route_panics_iff_invalid_segment_witness :
  (∃ msg, Route "/a/:" (OfHandlerFunc 0) empty_store = Panic msg) ↔
  (is_Some (IndexAny (normalize "/a/:") ":*") ∧
   ∃ k seg, Split (Trim (normalize "/a/:") "/") "/" !! k = Some seg ∧
            segment_invalid (k + 1 =? length (Split (Trim (normalize "/a/:") "/") "/"))%nat seg
              = true).
Proof.
  exact (Route_panics_iff_invalid_segment "/a/:" (OfHandlerFunc 0) (UserHandler 0)
           empty_store eq_refl).
Defined.

(** An instance: the route [/a/:b] and three attempts. *)
Lemma Route_attempts_return_witness :
  ∃ s', attempts lifo leaves_request a_b_router a_b_requests a_b_store = Ok s'.
Proof.
  apply (Route_attempts_return lifo leaves_request "/a/:b" (OfHandlerFunc 0) empty_store
           a_b_router a_b_store a_b_requests leaves_request_keeps_Body empty_store_wf
           empty_store_clean eq_refl (mk_is_Some _ _ eq_refl)).
  repeat constructor; discriminate.
Defined.

(** ** The byte in front of a named value *)

(** X18.  A named segment never looks at the first byte of what is left
    of the path: it skips that byte, whatever it is, and binds what
    follows up to the next slash.  The outcome of [match] is the same
    for any two paths that differ in that byte only. *)
Theorem named_segment_skips_one_byte cmp seg segments c0 c1 rest ps cap ts
    (Hnamed : String.get 1 seg = Some ":"%char) :
  match_ cmp (seg :: segments) (String c0 rest) ps cap ts
    = match_ cmp (seg :: segments) (String c1 rest) ps cap ts.
Proof. cbn [match_]. rewrite Hnamed. reflexivity. Qed.

(** An instance: [/a/:b] matches [/axyz] as it matches [/a/yz], with
    the value [yz]. *)
Lemma named_segment_skips_one_byte_witness :
  match_ caseSensitiveCompare ["/a"; "/:b"] "/axyz" [] 1 false
    = Ok (true, [{| Key := "b"; Value := "yz" |}]) ∧
  match_ caseSensitiveCompare ["/:b"] "xyz" [] 1 false
    = match_ caseSensitiveCompare ["/:b"] "/yz" [] 1 false.
Proof.
  split; [reflexivity |].
  exact (named_segment_skips_one_byte caseSensitiveCompare "/:b" [] "x" "/" "yz" [] 1 false
           eq_refl).
Defined.
